(** * mcap-etl: the rosbag parser ([mcap_etl/parser/rosbag.py])

    A shallow embedding of the schema flattener, the value filter, the
    topic table and the per-message step of [RosbagParser], together with
    the properties the specification states about them. *)

From Stdlib Require Import ZArith Ascii String List Lia Bool.
From Stdlib Require Import Floats.SpecFloat.
From stdpp Require Import base option list strings pretty gmap.

Local Open Scope string_scope.
Local Open Scope list_scope.

Set Warnings "-register-all".

(* ===================================================================== *)
(** * Strings                                                             *)
(* ===================================================================== *)

(** [SEPARATOR = "__"] *)
Definition SEPARATOR : string := "__".

(** [name.startswith('/')] *)
Definition startswith_slash (name : string) : bool :=
  match name with
  | String c _ => Ascii.eqb c "/"
  | EmptyString => false
  end.

(** [name[1:]] *)
Definition drop_first (name : string) : string :=
  match name with
  | String _ rest => rest
  | EmptyString => EmptyString
  end.

(** [name.replace('/', new)]: every occurrence of the one-character
    pattern is replaced, left to right. *)
Fixpoint replace_slash (new : string) (name : string) : string :=
  match name with
  | EmptyString => EmptyString
  | String c rest =>
      if Ascii.eqb c "/" then new +:+ replace_slash new rest
      else String c (replace_slash new rest)
  end.

(** [Topic.format_name] *)
Definition format_name (name : string) : string :=
  let name := if startswith_slash name then drop_first name else name in
  replace_slash SEPARATOR name.

(** Characters a ROS 1 graph resource name may contain after its first
    character: alphanumerics, underscore and the path separator. *)
Definition ros_name_char (c : ascii) : bool :=
  let n := nat_of_ascii c in
  (Nat.leb 48 n && Nat.leb n 57) || (Nat.leb 65 n && Nat.leb n 90)
  || (Nat.leb 97 n && Nat.leb n 122) || Ascii.eqb c "_" || Ascii.eqb c "/".

Fixpoint string_forallb (p : ascii -> bool) (s : string) : bool :=
  match s with
  | EmptyString => true
  | String c rest => p c && string_forallb p rest
  end.

(** A global (absolute) ROS 1 topic name, as a bag records it. *)
Definition ros_global_name (name : string) : bool :=
  startswith_slash name && string_forallb ros_name_char name.

(** The join token does not occur in the name. *)
Fixpoint no_separator (name : string) : bool :=
  match name with
  | String c1 (String c2 _ as rest) =>
      negb (Ascii.eqb c1 "_" && Ascii.eqb c2 "_") && no_separator rest
  | _ => true
  end.

(** No underscore is immediately followed by an underscore or by a path
    separator. *)
Fixpoint underscore_safe (name : string) : bool :=
  match name with
  | String c1 (String c2 _ as rest) =>
      negb (Ascii.eqb c1 "_" && (Ascii.eqb c2 "_" || Ascii.eqb c2 "/"))
      && underscore_safe rest
  | _ => true
  end.

(** The name contains a path separator. *)
Fixpoint has_slash (s : string) : bool :=
  match s with
  | EmptyString => false
  | String c rest => Ascii.eqb c "/" || has_slash rest
  end.

(** [str(i)] for a non-negative index: its decimal numeral. *)
Definition str (i : nat) : string := pretty i.

(* ===================================================================== *)
(** * Outcomes of a call, and state passing                               *)
(* ===================================================================== *)

(** The exceptions the modelled code can raise. [BadReference] is not a
    Python exception: it marks a reference to an object the modelled
    store does not hold. *)
Inductive exn :=
| TypeError (msg : string)
| KeyError (key : string)
| OverflowError
| BadReference.

(** A call returns, raises, or exceeds the recursion budget [fuel]
    (Python: unbounded recursion, ending in [RecursionError]). *)
Inductive outcome (A : Type) :=
| Ret (a : A)
| Raise (e : exn)
| NoFuel.
Arguments Ret {A} a.
Arguments Raise {A} e.
Arguments NoFuel {A}.

(** A computation over a mutable state [S]. *)
Definition M (S A : Type) : Type := S -> S * outcome A.

Definition ret {S A} (a : A) : M S A := fun s => (s, Ret a).
Definition raise {S A} (e : exn) : M S A := fun s => (s, Raise e).
Definition nofuel {S A} : M S A := fun s => (s, NoFuel).
Definition bind {S A B} (m : M S A) (k : A -> M S B) : M S B :=
  fun s =>
    match m s with
    | (s', Ret a) => k a s'
    | (s', Raise e) => (s', Raise e)
    | (s', NoFuel) => (s', NoFuel)
    end.
Definition get {S} : M S S := fun s => (s, Ret s).
Definition put {S} (s : S) : M S unit := fun _ => (s, Ret tt).

Declare Scope py_scope.
Delimit Scope py_scope with py.
Notation "'let*' x ':=' m 'in' k" := (bind m (fun x => k))
  (at level 10, x name, m at level 100, k at level 200) : py_scope.
Notation "m ';;' k" := (bind m (fun _ => k))
  (at level 100, k at level 200, right associativity) : py_scope.

(* ===================================================================== *)
(** * Message type definitions                                            *)
(* ===================================================================== *)

(** [rosbags.typesys.base.Nodetype], restricted to the four members that
    occur in field descriptors. It is an [IntEnum] whose members are
    numbered by [auto()], so [.value] counts them from one. *)
Inductive Nodetype := BASE | NAME | ARRAY | SEQUENCE.

Definition Nodetype_value (t : Nodetype) : nat :=
  match t with
  | BASE => 1
  | NAME => 2
  | ARRAY => 3
  | SEQUENCE => 4
  end.

(** A field descriptor, the tuple [field_node[1]]:
    - [(Nodetype.BASE, t)] and [(Nodetype.NAME, t)] carry a type name;
    - [(Nodetype.ARRAY, (elem, length))] is a fixed-length array;
    - [(Nodetype.SEQUENCE, (elem, length))] is a sequence, unbounded when
      [length] is [None]. *)
Inductive Fielddesc :=
| Fd_base (t : string)
| Fd_name (t : string)
| Fd_array (elem : Fielddesc) (length : nat)
| Fd_sequence (elem : Fielddesc) (length : option nat).

(** [field_node[1][0]] *)
Definition tag (d : Fielddesc) : Nodetype :=
  match d with
  | Fd_base _ => BASE
  | Fd_name _ => NAME
  | Fd_array _ _ => ARRAY
  | Fd_sequence _ _ => SEQUENCE
  end.

(** A registry entry [(constants, fields)]; [ros_schema[1]] is the ordered
    field list. Constants are kept as (name, type) pairs. *)
Definition Typedef : Type := list (string * string) * list (string * Fielddesc).

(** The two dictionaries [__flatten_schema] reads: the parser's own
    [self.__types] and the module-level [FIELDDEFS] of rosbags. *)
Record TypeRegistry := mkTypeRegistry {
  types : gmap string Typedef;
  FIELDDEFS : gmap string Typedef
}.

(** [class FlatField] *)
Record FlatField := mkFlatField {
  name : string;
  ros_type : string
}.

(** [self.__types.get(ros_type) or FIELDDEFS.get(ros_type)]: an entry is a
    two-element tuple, hence truthy, so [or] falls through exactly when the
    first lookup gives [None]. *)
Definition resolve (reg : TypeRegistry) (ros_type : string) : option Typedef :=
  match types reg !! ros_type with
  | Some ros_schema => Some ros_schema
  | None => FIELDDEFS reg !! ros_type
  end.

Definition lookup_schema (ros_type : string) : M TypeRegistry (option Typedef) :=
  (let* reg := get in ret (resolve reg ros_type))%py.

(** [full_name = parent_prefix + child.name;
     field = FlatField(full_name, child.ros_type)] *)
Definition prefixed (parent_prefix : string) (child : FlatField) : FlatField :=
  mkFlatField (parent_prefix +:+ name child) (ros_type child).

(** The fields one iteration of the loop over [schema_tree] appends to
    [flat_schema]; [flatten] is the recursive call. A descriptor tagged
    [ARRAY] matches none of [is_prim], [is_cls], [is_arr]. *)
Definition flatten_field (flatten : string -> M TypeRegistry (list FlatField))
    (field_node : string * Fielddesc) : M TypeRegistry (list FlatField) :=
  let name := fst field_node in
  match snd field_node with
  | Fd_base ros_type =>
      ret [mkFlatField name ros_type]
  | Fd_name ros_type =>
      let parent_prefix := name +:+ SEPARATOR in
      (let* children := flatten ros_type in
       ret (map (prefixed parent_prefix) children))%py
  | Fd_sequence param_field_node _ =>
      let length := Nodetype_value (tag (snd field_node)) in
      match param_field_node with
      | Fd_base param_ros_type =>
          ret (map (fun i =>
                      mkFlatField (name +:+ SEPARATOR +:+ str i) param_ros_type)
                   (seq 0 length))
      | _ => ret []
      end
  | Fd_array _ _ => ret []
  end.

(** [for field_node in schema_tree: ...] *)
Fixpoint flatten_fields (flatten : string -> M TypeRegistry (list FlatField))
    (schema_tree : list (string * Fielddesc)) (flat_schema : list FlatField)
    : M TypeRegistry (list FlatField) :=
  match schema_tree with
  | [] => ret flat_schema
  | field_node :: rest =>
      (let* fields := flatten_field flatten field_node in
       flatten_fields flatten rest (flat_schema ++ fields))%py
  end.

(** [RosbagParser.__flatten_schema] *)
Fixpoint flatten_schema (fuel : nat) (ros_type : string)
    : M TypeRegistry (list FlatField) :=
  match fuel with
  | O => nofuel
  | S fuel' =>
      (let* ros_schema := lookup_schema ros_type in
       match ros_schema with
       | None => raise (TypeError ("Unregistered ROS type: " +:+ ros_type))
       | Some ros_schema =>
           let schema_tree := snd ros_schema in
           flatten_fields (flatten_schema fuel') schema_tree []
       end)%py
  end.

(** Registries used in the examples below. *)
Definition reg_nested : TypeRegistry :=
  mkTypeRegistry
    (<["T" := ([], [("a", Fd_name "U")])]>
       (<["U" := ([], [("x", Fd_base "int"); ("y", Fd_base "int")])]> ∅))
    ∅.

Definition reg_of_field (field : string * Fielddesc) : TypeRegistry :=
  mkTypeRegistry (<["T" := ([], [field])]> ∅) ∅.

Definition reg_empty : TypeRegistry := mkTypeRegistry ∅ ∅.

(** A type with a field of a type that is nowhere defined. *)
Definition reg_dangling : TypeRegistry :=
  mkTypeRegistry
    (<["T" := ([], [("x", Fd_base "int"); ("h", Fd_name "Header")])]> ∅) ∅.

(** A type with a field of its own type. *)
Definition reg_cyclic : TypeRegistry :=
  mkTypeRegistry (<["Node" := ([], [("next", Fd_name "Node")])]> ∅) ∅.

(* ===================================================================== *)
(** * Decoded values and the store of dict objects                        *)
(* ===================================================================== *)

(** Scalar Python values. A NumPy scalar carries the name of its dtype. *)
Inductive Scalar :=
| S_int (z : Z)
| S_float (x : spec_float)
| S_bool (b : bool)
| S_str (s : string)
| S_None
| S_numpy (dtype : string) (x : spec_float)
| S_bytes (b : string).

(** [isinstance(data, self.PRIM_TYPES)] for a scalar: [int], [float],
    [bool], [str], [type(None)] and the NumPy types [int8], [int16],
    [int32], [int64], [float16], [float32], [float64], [bool]. *)
Definition is_prim (x : Scalar) : bool :=
  match x with
  | S_int _ | S_float _ | S_bool _ | S_str _ | S_None => true
  | S_numpy dtype _ =>
      existsb (String.eqb dtype)
        ["int8"; "int16"; "int32"; "int64";
         "float16"; "float32"; "float64"; "bool"]
  | S_bytes _ => false
  end.

(** The kinds of sequence the filter tells apart. The items of an
    [ndarray] are what iterating over it yields. *)
Inductive SeqKind :=
| K_list
| K_tuple
| K_ndarray (ndim : nat).

(** [isinstance(data, (list, tuple)) or
     (isinstance(data, np.ndarray) and data.ndim == 1)] *)
Definition unrolls (k : SeqKind) : bool :=
  match k with
  | K_list | K_tuple => true
  | K_ndarray ndim => Nat.eqb ndim 1
  end.

(** A Python value. Dicts are the objects the filter assigns into, so
    they live in the store and a value refers to them by address;
    sequences are only read and are given by their items. [V_object] is
    an instance of any other class. *)
Inductive PyVal :=
| V_scalar (x : Scalar)
| V_object (cls : string)
| V_seq (k : SeqKind) (items : list PyVal)
| V_dict (a : nat).

(** A dict: its items in insertion order. *)
Abbreviation Dict := (list (string * PyVal)).

(** The store: the dict held at every allocated address. *)
Abbreviation Store := (gmap nat (list (string * PyVal))).

(** [d[k] = v] on the items of a dict: an existing key keeps its place. *)
Fixpoint dict_set (k : string) (v : PyVal) (d : Dict) : Dict :=
  match d with
  | [] => [(k, v)]
  | (k', v') :: d' =>
      if String.eqb k' k then (k', v) :: d' else (k', v') :: dict_set k v d'
  end.

(** [del d[k]]; [None] when the key is absent. *)
Fixpoint dict_del (k : string) (d : Dict) : option Dict :=
  match d with
  | [] => None
  | (k', v') :: d' =>
      if String.eqb k' k then Some d'
      else match dict_del k d' with
           | Some d'' => Some ((k', v') :: d'')
           | None => None
           end
  end.

Definition load_dict (a : nat) : M Store Dict :=
  fun s =>
    match s !! a with
    | Some d => (s, Ret d)
    | None => (s, Raise BadReference)
    end.

(** [data[k] = v] for the dict at address [a]. *)
Definition setitem (a : nat) (k : string) (v : PyVal) : M Store unit :=
  (let* d := load_dict a in
   fun s => (<[a := dict_set k v d]> s, Ret tt))%py.

(** [dict()]: a new, empty dict at an unused address. *)
Definition new_dict : M Store nat :=
  fun s => let a := fresh (dom s) in (<[a := []]> s, Ret a).

(** [for k, v in data.items(): data[k] = filter(v)], for the dict at [a].
    The view is live: each step reads the item at the next position of the
    dict as it then is. [remaining] is [len(data)] when the loop starts. *)
Fixpoint filter_items (filter : PyVal -> M Store PyVal) (a : nat)
    (i remaining : nat) : M Store unit :=
  match remaining with
  | O => ret tt
  | S remaining' =>
      (let* d := load_dict a in
       match d !! i with
       | None => ret tt
       | Some (k, v) =>
           let* r := filter v in
           setitem a k r ;;
           filter_items filter a (S i) remaining'
       end)%py
  end.

(** [for i, v in enumerate(data): asdict[str(i)] = filter(v)] *)
Fixpoint filter_enumerate (filter : PyVal -> M Store PyVal) (asdict : nat)
    (i : nat) (data : list PyVal) : M Store unit :=
  match data with
  | [] => ret tt
  | v :: rest =>
      (let* r := filter v in
       setitem asdict (str i) r ;;
       filter_enumerate filter asdict (S i) rest)%py
  end.

(** [RosbagParser.__filter_multidimensional] *)
Fixpoint filter_multidimensional (fuel : nat) (data : PyVal) : M Store PyVal :=
  match fuel with
  | O => nofuel
  | S fuel' =>
      match data with
      | V_dict a =>
          (let* d := load_dict a in
           filter_items (filter_multidimensional fuel') a 0 (length d) ;;
           ret data)%py
      | V_seq k items =>
          if unrolls k then
            (let* asdict := new_dict in
             filter_enumerate (filter_multidimensional fuel') asdict 0 items ;;
             ret (V_dict asdict))%py
          else ret (V_scalar S_None)
      | V_scalar x =>
          if is_prim x then ret data else ret (V_scalar S_None)
      | V_object _ => ret (V_scalar S_None)
      end
  end.

(* ===================================================================== *)
(** * Values as trees                                                     *)
(* ===================================================================== *)

(** The content of a value, with every dict replaced by its items. *)
Inductive Tree :=
| T_scalar (x : Scalar)
| T_object (cls : string)
| T_seq (k : SeqKind) (items : list Tree)
| T_dict (items : list (string * Tree)).

Fixpoint depth (t : Tree) : nat :=
  match t with
  | T_scalar _ | T_object _ => 0
  | T_seq _ items => S (foldr (fun t acc => Nat.max (depth t) acc) 0 items)
  | T_dict items => S (foldr (fun kt acc => Nat.max (depth (snd kt)) acc) 0 items)
  end.

(** The keys of every dict in the tree are distinct. *)
Fixpoint keys_distinct (t : Tree) : bool :=
  match t with
  | T_scalar _ | T_object _ => true
  | T_seq _ items => forallb keys_distinct items
  | T_dict items =>
      bool_decide (NoDup (map fst items))
      && forallb (fun kt => keys_distinct (snd kt)) items
  end.

(** [[f(x) for x in l]], threading the state from left to right. *)
Section ForEach.
Context {S A B : Type} (f : A -> M S B).
Fixpoint for_each (l : list A) : M S (list B) :=
  match l with
  | [] => ret []
  | x :: l' =>
      (let* y := f x in
       let* ys := for_each l' in
       ret (y :: ys))%py
  end.
End ForEach.

(** Lays a tree out in the store, one new dict per mapping, children
    first; this is how a freshly decoded message sits in memory. *)
Fixpoint alloc (t : Tree) : M Store PyVal :=
  match t with
  | T_scalar x => ret (V_scalar x)
  | T_object cls => ret (V_object cls)
  | T_seq k items =>
      (let* vs := for_each alloc items in
       ret (V_seq k vs))%py
  | T_dict items =>
      (let* d := for_each (fun kt => let* v := alloc (snd kt) in
                                     ret (fst kt, v)) items in
       let* a := new_dict in
       (fun s => (<[a := d]> s, Ret tt)) ;;
       ret (V_dict a))%py
  end.

(** Reads the content of a value back from the store; [None] when a
    reference dangles or the nesting is deeper than [fuel]. *)
Fixpoint reify (fuel : nat) (s : Store) (v : PyVal) : option Tree :=
  match fuel with
  | O => None
  | S fuel' =>
      match v with
      | V_scalar x => Some (T_scalar x)
      | V_object cls => Some (T_object cls)
      | V_seq k items => T_seq k <$> mapM (reify fuel' s) items
      | V_dict a =>
          d ← s !! a;
          T_dict <$> mapM (fun kv => pair (fst kv) <$> reify fuel' s (snd kv)) d
      end
  end.

(** The value filter as the specification words it: a mapping is filtered
    field by field, a list, tuple or one-dimensional array becomes the
    mapping from its stringified indices to its filtered elements, a
    primitive scalar is kept, and anything else becomes the null marker. *)
Fixpoint filter_spec (t : Tree) : Tree :=
  match t with
  | T_dict items => T_dict (map (fun kt => (fst kt, filter_spec (snd kt))) items)
  | T_seq k items =>
      if unrolls k
      then T_dict (imap (fun i t => (str i, t)) (map filter_spec items))
      else T_scalar S_None
  | T_scalar x => if is_prim x then T_scalar x else T_scalar S_None
  | T_object _ => T_scalar S_None
  end.

(** The decoded message {a: {x: 1, y: 2}, b: [10, 20, 30]}. *)
Definition msg_ab : Tree :=
  T_dict [("a", T_dict [("x", T_scalar (S_int 1)); ("y", T_scalar (S_int 2))]);
          ("b", T_seq K_list [T_scalar (S_int 10); T_scalar (S_int 20);
                              T_scalar (S_int 30)])].

(** A message whose field [m] holds a two-dimensional array. *)
Definition msg_m : Tree :=
  T_dict [("m", T_seq (K_ndarray 2)
                  [T_seq (K_ndarray 1) [T_scalar (S_int 1); T_scalar (S_int 2)];
                   T_seq (K_ndarray 1) [T_scalar (S_int 3); T_scalar (S_int 4)]])].

(** Decodes [t] into the store [s] and filters it with recursion budget
    [fuel]; gives the store before the call, the store after it, the
    argument and the outcome. *)
Definition filter_decoded (fuel : nat) (t : Tree) (s : Store)
    : Store * Store * PyVal * outcome PyVal :=
  match alloc t s with
  | (s1, Ret v) =>
      let '(s2, r) := filter_multidimensional fuel v s1 in (s1, s2, v, r)
  | (s1, _) => (s1, s1, V_scalar S_None, NoFuel)
  end.

(** [repr s v t F]: in the store [s] the value [v] has content [t], the
    dicts it reaches are those at the addresses [F], each reached once
    (no dict is shared), and the keys of each are distinct. *)
Inductive repr (s : Store) : PyVal -> Tree -> gset nat -> Prop :=
| repr_scalar x : repr s (V_scalar x) (T_scalar x) ∅
| repr_object cls : repr s (V_object cls) (T_object cls) ∅
| repr_seq k vs ts F :
    reprs s vs ts F -> repr s (V_seq k vs) (T_seq k ts) F
| repr_dict a d items F :
    s !! a = Some d ->
    NoDup (map fst d) ->
    map fst d = map fst items ->
    a ∉ F ->
    reprs s (map snd d) (map snd items) F ->
    repr s (V_dict a) (T_dict items) ({[a]} ∪ F)
with reprs (s : Store) : list PyVal -> list Tree -> gset nat -> Prop :=
| reprs_nil : reprs s [] [] ∅
| reprs_cons v vs t ts F1 F2 :
    repr s v t F1 -> reprs s vs ts F2 -> F1 ## F2 ->
    reprs s (v :: vs) (t :: ts) (F1 ∪ F2).

Scheme repr_mut := Minimality for repr Sort Prop
  with reprs_mut := Minimality for reprs Sort Prop.

(** What a correct call of the filter on a value of content [t] does: it
    returns a value whose content is [filter_spec t]; the dicts of the
    result are dicts of the argument or new ones; no dict outside the
    argument is changed; and a dict argument is returned itself. *)
Definition filter_ok (filter : PyVal -> M Store PyVal) (t : Tree) : Prop :=
  forall (s : Store) v F,
    repr s v t F ->
    exists (s' : Store) v' F',
      filter v s = (s', Ret v')
      /\ repr s' v' (filter_spec t) F'
      /\ F' ⊆ F ∪ (dom s' ∖ dom s)
      /\ dom s ⊆ dom s'
      /\ (forall b, b ∈ dom s -> b ∉ F -> s' !! b = s !! b)
      /\ (forall a, v = V_dict a -> v' = v).

(** Laying out a tree gives a value with that content whose dicts are all
    new, and leaves the dicts already in the store as they were. *)
Definition alloc_ok (t : Tree) : Prop :=
  forall s, keys_distinct t = true ->
    exists (s' : Store) v F,
      alloc t s = (s', Ret v)
      /\ repr s' v t F
      /\ F ## dom s
      /\ dom s ⊆ dom s'
      /\ (forall b, b ∈ dom s -> s' !! b = s !! b).

(* ===================================================================== *)
(** * The topic table                                                     *)
(* ===================================================================== *)

(** A flat record: keys to values, in insertion order. *)
Abbreviation Record_ := (list (string * Tree)).

(** [d[k] = v] on a flat record. *)
Fixpoint record_set (k : string) (v : Tree) (d : Record_) : Record_ :=
  match d with
  | [] => [(k, v)]
  | (k', v') :: d' =>
      if String.eqb k' k then (k', v) :: d' else (k', v') :: record_set k v d'
  end.

(** [d.get(k)] *)
Fixpoint record_get (k : string) (d : Record_) : option Tree :=
  match d with
  | [] => None
  | (k', v') :: d' => if String.eqb k' k then Some v' else record_get k d'
  end.

(** [isinstance(v, dict)] *)
Definition is_dict (v : Tree) : bool :=
  match v with
  | T_dict _ => true
  | _ => false
  end.

(** [pandas.json_normalize] and [pandas.DataFrame] belong to pandas, not
    to this repository. The three definitions below follow pandas'
    [_normalise_json], [_normalise_json_ordered] and
    [_simple_json_normalize], which [json_normalize] runs when only [sep]
    is given.

    [new_key = f"{key_string}{separator}{key}"], with the separator
    removed again when [key_string] is empty. *)
Definition new_key (key_string separator key : string) : string :=
  if String.eqb key_string "" then key
  else key_string +:+ separator +:+ key.

(** pandas [_normalise_json]: a dict is descended into, anything else is
    stored under the key built so far. *)
Fixpoint normalise_json (data : Tree) (key_string separator : string)
    (normalized_dict : Record_) : Record_ :=
  match data with
  | T_dict items =>
      fold_left
        (fun acc kv =>
           normalise_json (snd kv) (new_key key_string separator (fst kv))
                          separator acc)
        items normalized_dict
  | _ => record_set key_string data normalized_dict
  end.

(** pandas [_normalise_json_ordered]: the top-level keys whose values are
    not dicts come first, then the flattened nested ones
    ([{**top_dict_, **nested_dict_}]). *)
Definition normalise_json_ordered (items : list (string * Tree))
    (separator : string) : Record_ :=
  let top_dict_ := filter (fun kv => negb (is_dict (snd kv))) items in
  let nested_dict_ :=
    normalise_json (T_dict (filter (fun kv => is_dict (snd kv)) items))
                   "" separator [] in
  fold_left (fun acc kv => record_set (fst kv) (snd kv) acc)
            nested_dict_
            (fold_left (fun acc kv => record_set (fst kv) (snd kv) acc)
                       top_dict_ []).

(** pandas [_simple_json_normalize] on one row. A row that is itself a
    list is outside this model ([None]); a scalar row gives [{}]. *)
Definition simple_json_normalize (row : Tree) (sep : string) : option Record_ :=
  match row with
  | T_dict items => Some (normalise_json_ordered items sep)
  | T_seq _ _ => None
  | _ => Some []
  end.

(** A table: its column labels and, for every row, one cell per column;
    [None] is a missing cell (NaN). *)
Record DataFrame := mkDataFrame {
  columns : list string;
  rows : list (list (option Tree))
}.

(** The column labels of [DataFrame(records)]: every key of every record,
    in order of first occurrence. *)
Definition add_column (cols : list string) (k : string) : list string :=
  if existsb (String.eqb k) cols then cols else cols ++ [k].

Definition union_columns (records : list Record_) : list string :=
  fold_left (fun cols r => fold_left add_column (map fst r) cols) records [].

(** [DataFrame(records)] for a list of flat records. *)
Definition DataFrame_of_records (records : list Record_) : DataFrame :=
  let cols := union_columns records in
  mkDataFrame cols (map (fun r => map (fun c => record_get c r) cols) records).

(** [pd.json_normalize(data, sep=sep)] for a list of rows; an empty list
    gives the empty [DataFrame()]. *)
Definition json_normalize (data : list Tree) (sep : string) : option DataFrame :=
  match data with
  | [] => Some (mkDataFrame [] [])
  | _ =>
      match mapM (fun row => simple_json_normalize row sep) data with
      | Some records => Some (DataFrame_of_records records)
      | None => None
      end
  end.

(** [class Topic]. The messages are the objects handed to [add_message],
    held by reference. *)
Record Topic := mkTopic {
  topic_name : string;
  schema : list FlatField;
  messages : list PyVal
}.

(** [Topic.__init__] *)
Definition Topic_init (name : string) (schema : list FlatField) : Topic :=
  mkTopic (format_name name) schema [].

(** [Topic.add_message] *)
Definition add_message (self : Topic) (message : PyVal) : Topic :=
  mkTopic (topic_name self) (schema self) (messages self ++ [message]).

(** [Topic.message_count] *)
Definition message_count (self : Topic) : nat := length (messages self).

(** [Topic.as_df]: pandas walks the accumulated messages as they are in
    the store [s] when the table is built ([fuel] bounds the nesting it
    can walk); [pd.DataFrame(flattened)] copies the frame. *)
Definition as_df (fuel : nat) (s : Store) (self : Topic) : option DataFrame :=
  match mapM (reify fuel s) (messages self) with
  | Some data => json_normalize data SEPARATOR
  | None => None
  end.

(** The position of the column labelled [c]. *)
Fixpoint column_index (c : string) (cols : list string) : option nat :=
  match cols with
  | [] => None
  | c' :: cols' =>
      if String.eqb c' c then Some 0
      else match column_index c cols' with
           | Some j => Some (S j)
           | None => None
           end
  end.


(** Two messages of one topic whose field [b] has three and two
    elements. *)
Definition msg_b3 : Tree :=
  T_dict [("b", T_seq K_list [T_scalar (S_int 10); T_scalar (S_int 20);
                              T_scalar (S_int 30)])].
Definition msg_b2 : Tree :=
  T_dict [("b", T_seq K_list [T_scalar (S_int 11); T_scalar (S_int 21)])].

(** Decodes and filters [t], as [read_message] does, and hands the result
    to [add_message]. *)
Definition ingest (fuel : nat) (t : Tree) (self : Topic) : M Store Topic :=
  (let* v := alloc t in
   let* msg := filter_multidimensional fuel v in
   ret (add_message self msg))%py.

(** The table of a topic into which [msg_b3] and then [msg_b2] were
    ingested. *)
Definition table_b3_b2 : option DataFrame :=
  match (let* t1 := ingest 3 msg_b3 (Topic_init "/b" []) in
         ingest 3 msg_b2 t1)%py ∅ with
  | (s, Ret topic) => as_df 3 s topic
  | _ => None
  end.

(** The content of what the filter returns for a freshly decoded [t];
    [None] when the call does not return. *)
Definition filtered_content (fuel : nat) (t : Tree) (s : Store) : option Tree :=
  match filter_decoded fuel t s with
  | (_, s2, _, Ret v') => reify fuel s2 v'
  | _ => None
  end.

(** The content of the argument after the filter has returned. *)
Definition argument_after (fuel : nat) (t : Tree) (s : Store) : option Tree :=
  match filter_decoded fuel t s with
  | (_, s2, v, Ret _) => reify fuel s2 v
  | _ => None
  end.

(** The flat record {a__x: 1, a__y: 2, b__0: 10, b__1: 20, b__2: 30}. *)
Definition flat_ab : Record_ :=
  [("a__x", T_scalar (S_int 1)); ("a__y", T_scalar (S_int 2));
   ("b__0", T_scalar (S_int 10)); ("b__1", T_scalar (S_int 20));
   ("b__2", T_scalar (S_int 30))].


(** No mapping in the tree has an empty key. *)
Fixpoint keys_nonempty (t : Tree) : bool :=
  match t with
  | T_dict items =>
      forallb (fun kt => negb (String.eqb (fst kt) "") && keys_nonempty (snd kt))
              items
  | _ => true
  end.

(* ===================================================================== *)
(** * Reading messages                                                    *)
(* ===================================================================== *)

(** Python floats are IEEE 754 binary64 numbers. *)
Definition prec : Z := 53.
Definition emax : Z := 1024.

(** [MS_IN_NS = 1e-6]: the binary64 number nearest to 10^-6,
    4722366482869645 * 2^-72. *)
Definition MS_IN_NS : spec_float := S754_finite false 4722366482869645 (-72).

(** The conversion of an [int] operand to [float], rounding to nearest,
    ties to even. *)
Definition float_of_int (z : Z) : spec_float :=
  binary_normalize prec emax z 0 false.

(** [int(x)]: truncation toward zero; [None] for an infinity or a NaN,
    where Python raises. *)
Definition int_of_float (x : spec_float) : option Z :=
  match x with
  | S754_zero _ => Some 0%Z
  | S754_finite sign m e =>
      let magnitude :=
        match e with
        | Zneg p => Z.shiftr (Zpos m) (Zpos p)
        | _ => Z.shiftl (Zpos m) e
        end in
      Some (if sign then Z.opp magnitude else magnitude)
  | S754_infinity _ | S754_nan => None
  end.

(** [int(ts * self.MS_IN_NS)] *)
Definition ts_ms (ts : Z) : option Z :=
  int_of_float (SFmul prec emax (float_of_int ts) MS_IN_NS).

(** [msg[k] = v] for a value [msg]; only a dict supports it. *)
Definition setitem_val (msg : PyVal) (k : string) (v : PyVal) : M Store unit :=
  match msg with
  | V_dict a => setitem a k v
  | _ => raise (TypeError "object does not support item assignment")
  end.

(** [del msg[k]] *)
Definition delitem_val (msg : PyVal) (k : string) : M Store unit :=
  match msg with
  | V_dict a =>
      (let* d := load_dict a in
       match dict_del k d with
       | Some d' => fun s => (<[a := d']> s, Ret tt)
       | None => raise (KeyError k)
       end)%py
  | _ => raise (TypeError "object does not support item deletion")
  end.

(** One iteration of the loop of [RosbagParser.read_message], from the
    decoded message on: [msg__dict__] is [msg.__dict__] of the object the
    decoder returned, [conn_topic] and [ts] come from the reader. The
    result is the pair the generator yields. *)
Definition read_message_step (fuel : nat) (conn_topic : string) (ts : Z)
    (msg__dict__ : PyVal) : M Store (string * PyVal) :=
  let topic := format_name conn_topic in
  (let* msg := filter_multidimensional fuel msg__dict__ in
   match ts_ms ts with
   | None => raise OverflowError
   | Some ms =>
       setitem_val msg "ts" (V_scalar (S_int ms)) ;;
       delitem_val msg "__msgtype__" ;;
       ret (topic, msg)
   end)%py.



(* ===================================================================== *)
(** * The parser session                                                  *)
(* ===================================================================== *)

(** [s.endswith(suffix)] *)
Fixpoint endswith (s suffix : string) : bool :=
  String.eqb s suffix
  || match s with
     | String _ rest => endswith rest suffix
     | EmptyString => false
     end.

(** [RosbagParser.is_rosbag] *)
Definition is_rosbag (file : string) : bool := endswith file ".bag".

(** The guard that opens [RosbagParser.__init__]. *)
Definition check_is_rosbag (file : string) : outcome unit :=
  if is_rosbag file then Ret tt
  else Raise (TypeError ("Not a rosbag file: " +:+ file)).

(** [for topic in ...: self.__topics[topic.name] = topic], the loop that
    closes [RosbagParser.__init__], over the topics [__parse_topics]
    returned. *)
Definition register_topics (parsed : list Topic) (topics : gmap string Topic)
    : gmap string Topic :=
  fold_left (fun topics topic => <[topic_name topic := topic]> topics)
            parsed topics.

(** What the parser holds while messages are read: the store of dict
    objects and [self.__topics]. *)
Record Session := mkSession {
  store : Store;
  session_topics : gmap string Topic
}.

(** Runs a computation on the store of the session. *)
Definition on_store {A} (m : M Store A) : M Session A :=
  fun sess =>
    let '(s', r) := m (store sess) in
    (mkSession s' (session_topics sess), r).

(** [self.__topics[topic].add_message(msg)] *)
Definition add_to_topic (topic : string) (msg : PyVal) : M Session unit :=
  fun sess =>
    match session_topics sess !! topic with
    | Some t =>
        (mkSession (store sess)
                   (<[topic := add_message t msg]> (session_topics sess)),
         Ret tt)
    | None => (sess, Raise (KeyError topic))
    end.

(** One message as the reader and the decoder deliver it: the topic of
    its connection, its timestamp, and the content of the [__dict__] of
    the decoded object. *)
Record ReaderMessage := mkReaderMessage {
  conn_topic : string;
  timestamp : Z;
  decoded : Tree
}.

(** [RosbagParser.read_messages], over the messages of the reader: each
    is decoded into a new object, passed through the step of
    [read_message], and added to its topic. *)
Fixpoint read_messages (fuel : nat) (msgs : list ReaderMessage) : M Session unit :=
  match msgs with
  | [] => ret tt
  | m :: rest =>
      (let* v := on_store (alloc (decoded m)) in
       let* yielded :=
         on_store (read_message_step fuel (conn_topic m) (timestamp m) v) in
       add_to_topic (fst yielded) (snd yielded) ;;
       read_messages fuel rest)%py
  end.

(** A message [read_messages] can process: a dict with distinct keys, one
    of them '__msgtype__', nested less deeply than the recursion budget,
    with a timestamp in the range of [int(ts * 1e-6)]. *)
Definition readable (fuel : nat) (m : ReaderMessage) : Prop :=
  exists items,
    decoded m = T_dict items
    /\ keys_distinct (T_dict items) = true
    /\ "__msgtype__" ∈ map fst items
    /\ depth (T_dict items) < fuel
    /\ is_Some (ts_ms (timestamp m)).

(** The number of messages whose connection is normalized to [name]. *)
Definition count_for (name : string) (msgs : list ReaderMessage) : nat :=
  length (filter (fun m => format_name (conn_topic m) = name) msgs).

(** A value made of mappings and primitive scalars only. *)
Fixpoint only_prims (t : Tree) : bool :=
  match t with
  | T_scalar x => is_prim x
  | T_dict items => forallb (fun kt => only_prims (snd kt)) items
  | T_object _ | T_seq _ _ => false
  end.


(** A store whose only dict holds itself under the key 'self'. *)
Definition store_cyclic : Store :=
  <[0 := [("self", V_dict 0); ("x", V_scalar (S_int 1))]]> ∅.

(** A reader message with the given content, for the examples. *)
Definition stamped (topic : string) (ts : Z) : ReaderMessage :=
  mkReaderMessage topic ts
    (T_dict [("x", T_scalar (S_int 1));
             ("__msgtype__", T_scalar (S_str "pkg/msg/X"))]).

(* ===================================================================== *)
(** * Proof automation                                                    *)
(* ===================================================================== *)

(** Membership goals over footprints and domains, decided element by
    element: quantified hypotheses (frame conditions, induction
    hypotheses) are put aside, the set hypotheses are instantiated at the
    element in question, and what is left is propositional. *)
Ltac elem x :=
  repeat match goal with
         | H : ?T |- _ => lazymatch T with forall _ : _, _ => clear H end
         | H : filter_ok _ _ |- _ => clear H
         | H : Forall _ _ |- _ => clear H
         | H : reprs _ _ _ _ |- _ => clear H
         | H : repr _ _ _ _ |- _ => clear H
         end;
  set_unfold;
  repeat match goal with
         | H : forall _ : nat, _ |- _ => specialize (H x)
         end;
  intuition congruence.

Ltac sets :=
  lazymatch goal with
  | |- _ ⊆ _ => let x := fresh "x" in intros x ?; elem x
  | |- _ ## _ => let x := fresh "x" in intros x ? ?; elem x
  | |- ?a ∉ _ => intros ?; elem a
  | |- ?b ∈ _ => elem b
  | |- ?b ≠ ?a => let E := fresh in intros E; rewrite E in *; elem a
  end.

(* ===================================================================== *)
(** * Channel names                                                       *)
(* ===================================================================== *)

Section FormatName.

Lemma format_name_absolute (rest : string) :
  format_name (String "/" rest) = replace_slash SEPARATOR rest.
Proof. reflexivity. Qed.

Lemma format_name_relative (name : string) :
  startswith_slash name = false ->
  format_name name = replace_slash SEPARATOR name.
Proof. unfold format_name. intros ->. reflexivity. Qed.

Lemma underscore_safe_tail c rest :
  underscore_safe (String c rest) = true -> underscore_safe rest = true.
Proof.
  destruct rest as [|c2 rest]; [reflexivity|].
  cbn [underscore_safe]. intros H. apply andb_prop in H. tauto.
Qed.

(** A name that starts with an underscore has nothing of the join token
    after it. *)
Lemma underscore_safe_head rest :
  underscore_safe (String "_" rest) = true ->
  forall tl, replace_slash SEPARATOR rest <> String "_" tl.
Proof.
  destruct rest as [|c2 rest]; [discriminate|].
  cbn [underscore_safe]. intros H tl. apply andb_prop in H as [H _].
  cbn [replace_slash]. rewrite Ascii.eqb_refl in H. cbn in H.
  destruct (Ascii.eqb_spec c2 "/") as [->|Hs].
  - rewrite orb_true_r in H. discriminate.
  - rewrite orb_false_r in H. intros [= -> _]. discriminate.
Qed.

Lemma replace_slash_inj (a : string) :
  forall b, underscore_safe a = true -> underscore_safe b = true ->
    replace_slash SEPARATOR a = replace_slash SEPARATOR b -> a = b.
Proof.
  induction a as [|c a IH]; intros [|d b] Ha Hb; cbn [replace_slash].
  - reflexivity.
  - destruct (Ascii.eqb d "/"); discriminate.
  - destruct (Ascii.eqb c "/"); discriminate.
  - pose proof (underscore_safe_tail _ _ Ha) as Ha'.
    pose proof (underscore_safe_tail _ _ Hb) as Hb'.
    destruct (Ascii.eqb_spec c "/") as [->|Hc];
      destruct (Ascii.eqb_spec d "/") as [->|Hd]; cbn.
    + intros [= E]. f_equal. auto.
    + intros [= <- E]. symmetry in E.
      exfalso. exact (underscore_safe_head _ Hb _ E).
    + intros [= -> E].
      exfalso. exact (underscore_safe_head _ Ha _ E).
    + intros [= -> E]. f_equal. auto.
Qed.

Lemma startswith_slash_inv name :
  startswith_slash name = true -> name = String "/" (drop_first name).
Proof.
  destruct name as [|c rest]; [discriminate|]. cbn.
  destruct (Ascii.eqb_spec c "/") as [->|]; [reflexivity|discriminate].
Qed.

End FormatName.

(** C6, as the specification states it, fails: two distinct global ROS
    names, neither containing the join token, are normalized to the same
    topic name. *)
Lemma format_name_collision :
  ~ (forall a b : string,
        ros_global_name a = true -> ros_global_name b = true ->
        no_separator a = true -> no_separator b = true ->
        format_name a = format_name b -> a = b).
Proof.
  intros H.
  specialize (H "/a_/b" "/a/_b" eq_refl eq_refl eq_refl eq_refl eq_refl).
  discriminate H.
Qed.

(** C6 (amended): [format_name] strips one leading path separator and
    replaces every remaining separator with the join token; it sends
    "/robot/imu/data" to "robot__imu__data"; and it is injective on names
    that agree on having a leading separator and in which no underscore is
    immediately followed by an underscore or a separator. *)
Theorem format_name_spec :
  format_name "/robot/imu/data" = "robot__imu__data"
  /\ (forall rest, format_name (String "/" rest) = replace_slash SEPARATOR rest)
  /\ (forall name, startswith_slash name = false ->
        format_name name = replace_slash SEPARATOR name)
  /\ (forall a b,
        underscore_safe a = true -> underscore_safe b = true ->
        startswith_slash a = startswith_slash b ->
        format_name a = format_name b -> a = b).
Proof.
  split; [reflexivity|]. split; [exact format_name_absolute|].
  split; [exact format_name_relative|].
  intros a b Ha Hb Hs. unfold format_name. rewrite <- Hs.
  destruct (startswith_slash a) eqn:Ea.
  - symmetry in Hs.
    rewrite (startswith_slash_inv a Ea) in Ha |- *.
    rewrite (startswith_slash_inv b Hs) in Hb |- *.
    cbn [drop_first]. intros E. f_equal.
    apply replace_slash_inj; eauto using underscore_safe_tail.
  - apply replace_slash_inj; assumption.
Qed.

Lemma format_name_spec_witness :
  underscore_safe "/camera/image_raw" = true
  /\ format_name "/camera/image_raw" = "camera__image_raw"
  /\ "/camera/image_raw" = "/camera/image_raw".
Proof.
  split; [reflexivity|]. split; [reflexivity|].
  exact (proj2 (proj2 (proj2 format_name_spec))
           "/camera/image_raw" "/camera/image_raw"
           eq_refl eq_refl eq_refl eq_refl).
Defined.

(* ===================================================================== *)
(** * The schema flattener                                                *)
(* ===================================================================== *)

Section FlattenSchema.

Implicit Types (reg : TypeRegistry) (flatten : string -> M TypeRegistry (list FlatField)).

(** When every field of a list returns its own output without touching
    the registry, the loop returns the concatenation, in order. *)
Lemma flatten_fields_concat flatten reg fields :
  forall outs acc,
    Forall2 (fun field out => flatten_field flatten field reg = (reg, Ret out))
            fields outs ->
    flatten_fields flatten fields acc reg = (reg, Ret (acc ++ concat outs)).
Proof.
  induction fields as [|field fields IH]; intros outs acc H; inversion H; subst.
  - cbn. rewrite app_nil_r. reflexivity.
  - cbn [flatten_fields]. unfold bind at 1. rewrite H2.
    rewrite (IH _ _ H4). cbn [concat]. rewrite app_assoc. reflexivity.
Qed.

Lemma flatten_schema_concat fuel reg ros_type consts fields outs :
  resolve reg ros_type = Some (consts, fields) ->
  Forall2 (fun field out =>
             flatten_field (flatten_schema fuel) field reg = (reg, Ret out))
          fields outs ->
  flatten_schema (S fuel) ros_type reg = (reg, Ret (concat outs)).
Proof.
  intros Hres H. cbn [flatten_schema]. unfold bind at 1, lookup_schema.
  unfold bind at 1, get, ret. cbn. rewrite Hres. cbn [snd].
  apply (flatten_fields_concat _ _ _ _ [] H).
Qed.

Lemma flatten_field_base flatten reg f t :
  flatten_field flatten (f, Fd_base t) reg = (reg, Ret [mkFlatField f t]).
Proof. reflexivity. Qed.

Lemma flatten_field_name flatten reg f U children :
  flatten U reg = (reg, Ret children) ->
  flatten_field flatten (f, Fd_name U) reg
  = (reg, Ret (map (prefixed (f +:+ SEPARATOR)) children)).
Proof. intros H. cbn. unfold bind. rewrite H. reflexivity. Qed.

(** The number of fields emitted for a sequence of primitives is the
    enum value of the tag, whatever the declared length. *)
Lemma flatten_field_sequence_base flatten reg f t len :
  flatten_field flatten (f, Fd_sequence (Fd_base t) len) reg
  = (reg, Ret (map (fun i => mkFlatField (f +:+ SEPARATOR +:+ str i) t)
                   (seq 0 (Nodetype_value SEQUENCE)))).
Proof. reflexivity. Qed.

Lemma flatten_field_sequence_other flatten reg f elem len :
  tag elem <> BASE ->
  flatten_field flatten (f, Fd_sequence elem len) reg = (reg, Ret []).
Proof. destruct elem; cbn; intros H; [contradiction|reflexivity..]. Qed.

Lemma flatten_field_array flatten reg f elem n :
  flatten_field flatten (f, Fd_array elem n) reg = (reg, Ret []).
Proof. reflexivity. Qed.

(** The registry is only read. *)
Lemma flatten_fields_frame flatten :
  (forall t reg, fst (flatten t reg) = reg) ->
  forall fields acc reg, fst (flatten_fields flatten fields acc reg) = reg.
Proof.
  intros Hfl. induction fields as [|[f d] fields IH]; intros acc reg; [reflexivity|].
  cbn [flatten_fields]. unfold bind at 1.
  destruct d as [t|t|elem n|elem len]; cbn.
  - apply IH.
  - unfold bind. specialize (Hfl t reg).
    destruct (flatten t reg) as [reg' [children| |]]; cbn in *; subst;
      [apply IH|reflexivity|reflexivity].
  - apply IH.
  - destruct elem; cbn; apply IH.
Qed.

End FlattenSchema.

(** C1: the code does not do what the claim says. For the field [p], a
    sequence of length 3 of primitive [float], it emits the four fields
    p__0 .. p__3 (one per unit of the tag's enum value, not of the length);
    for the same field tagged as a fixed-length [ARRAY] it emits none. *)
Theorem flatten_schema_fixed_length_p :
  flatten_schema 1 "T" (reg_of_field ("p", Fd_sequence (Fd_base "float") (Some 3)))
  = (reg_of_field ("p", Fd_sequence (Fd_base "float") (Some 3)),
     Ret [mkFlatField "p__0" "float"; mkFlatField "p__1" "float";
          mkFlatField "p__2" "float"; mkFlatField "p__3" "float"])
  /\ flatten_schema 1 "T" (reg_of_field ("p", Fd_array (Fd_base "float") 3))
     = (reg_of_field ("p", Fd_array (Fd_base "float") 3), Ret []).
Proof. split; vm_compute; reflexivity. Qed.

(** C2: the code does not do what the claim says for an unbounded
    sequence of primitives: the field [data] yields the four fields
    data__0 .. data__3. Sequences whose element is not a primitive do
    yield nothing. *)
Theorem flatten_schema_unbounded_data :
  flatten_schema 1 "T" (reg_of_field ("data", Fd_sequence (Fd_base "uint8") None))
  = (reg_of_field ("data", Fd_sequence (Fd_base "uint8") None),
     Ret [mkFlatField "data__0" "uint8"; mkFlatField "data__1" "uint8";
          mkFlatField "data__2" "uint8"; mkFlatField "data__3" "uint8"])
  /\ flatten_schema 1 "T" (reg_of_field ("poses", Fd_sequence (Fd_name "Pose") None))
     = (reg_of_field ("poses", Fd_sequence (Fd_name "Pose") None), Ret [])
  /\ flatten_schema 1 "T"
       (reg_of_field ("m", Fd_sequence (Fd_sequence (Fd_base "float") None) None))
     = (reg_of_field ("m", Fd_sequence (Fd_sequence (Fd_base "float") None) None),
        Ret []).
Proof. repeat split; vm_compute; reflexivity. Qed.

(** C5: a type whose fields are all primitive flattens to one field per
    declared field, same names, same order; a field [f] of named type [U]
    contributes the flattened fields of [U], each renamed
    [f + SEPARATOR + child name] and keeping its type, between the fields
    declared before and after it; and T{ a: U{ x: int, y: int } } flattens
    to a__x, a__y. *)
Theorem flatten_schema_flat_and_nested :
  (forall fuel reg T consts (prims : list (string * string)),
      resolve reg T = Some (consts, map (fun p => (fst p, Fd_base (snd p))) prims) ->
      flatten_schema (S fuel) T reg
      = (reg, Ret (map (fun p => mkFlatField (fst p) (snd p)) prims)))
  /\ (forall fuel reg T consts before f U after outs_before children outs_after,
        resolve reg T = Some (consts, before ++ (f, Fd_name U) :: after) ->
        Forall2 (fun field out =>
                   flatten_field (flatten_schema fuel) field reg = (reg, Ret out))
                before outs_before ->
        flatten_schema fuel U reg = (reg, Ret children) ->
        Forall2 (fun field out =>
                   flatten_field (flatten_schema fuel) field reg = (reg, Ret out))
                after outs_after ->
        flatten_schema (S fuel) T reg
        = (reg, Ret (concat outs_before
                     ++ map (fun child =>
                               mkFlatField ((f +:+ SEPARATOR) +:+ name child)
                                           (ros_type child))
                            children
                     ++ concat outs_after)))
  /\ flatten_schema 2 "T" reg_nested
     = (reg_nested, Ret [mkFlatField "a__x" "int"; mkFlatField "a__y" "int"]).
Proof.
  split; [|split].
  - intros fuel reg T consts prims Hres.
    rewrite (flatten_schema_concat fuel reg T consts _
               (map (fun p => [mkFlatField (fst p) (snd p)]) prims) Hres).
    + f_equal. f_equal. clear Hres.
      induction prims as [|p prims IH]; [reflexivity|].
      cbn. f_equal. exact IH.
    + clear Hres.
      induction prims as [|p prims IH]; constructor; [reflexivity|exact IH].
  - intros fuel reg T consts before f U after outs_before children outs_after
           Hres Hb HU Ha.
    rewrite (flatten_schema_concat fuel reg T consts _
               (outs_before ++ map (prefixed (f +:+ SEPARATOR)) children :: outs_after)
               Hres).
    + rewrite concat_app. reflexivity.
    + apply Forall2_app; [exact Hb|]. constructor; [|exact Ha].
      apply flatten_field_name. exact HU.
  - vm_compute. reflexivity.
Qed.

Lemma flatten_schema_flat_and_nested_witness :
  flatten_schema 1 "U" reg_nested
  = (reg_nested, Ret [mkFlatField "x" "int"; mkFlatField "y" "int"])
  /\ flatten_schema 2 "T" reg_nested
     = (reg_nested, Ret (map (fun child =>
                                mkFlatField (("a" +:+ SEPARATOR) +:+ name child)
                                            (ros_type child))
                             [mkFlatField "x" "int"; mkFlatField "y" "int"])).
Proof.
  split.
  - exact (proj1 flatten_schema_flat_and_nested 0 reg_nested "U" []
             [("x", "int"); ("y", "int")] eq_refl).
  - exact (proj1 (proj2 flatten_schema_flat_and_nested) 1 reg_nested "T" []
             [] "a" "U" [] [] [mkFlatField "x" "int"; mkFlatField "y" "int"] []
             eq_refl (List.Forall2_nil _) eq_refl (List.Forall2_nil _)).
Defined.

(** C7: flattening a type name that is neither in the parser's registry
    nor in the built-in catalogue raises [TypeError] with the message
    "Unregistered ROS type: " followed by that name, and the registry is
    left as it was. *)
Theorem flatten_schema_unknown_type fuel reg ros_type :
  types reg !! ros_type = None ->
  FIELDDEFS reg !! ros_type = None ->
  flatten_schema (S fuel) ros_type reg
  = (reg, Raise (TypeError ("Unregistered ROS type: " +:+ ros_type))).
Proof.
  intros Ht Hf. cbn [flatten_schema].
  unfold lookup_schema, bind, get, ret, resolve. cbn.
  rewrite Ht, Hf. reflexivity.
Qed.

Lemma flatten_schema_unknown_type_witness :
  flatten_schema 1 "foo/msg/Bar" reg_nested
  = (reg_nested, Raise (TypeError "Unregistered ROS type: foo/msg/Bar")).
Proof.
  exact (flatten_schema_unknown_type 0 reg_nested "foo/msg/Bar" eq_refl eq_refl).
Defined.

(* ===================================================================== *)
(** * The value filter                                                    *)
(* ===================================================================== *)

Section Dicts.

Lemma dict_set_fresh k v (d : Dict) :
  k ∉ map fst d -> dict_set k v d = d ++ [(k, v)].
Proof.
  induction d as [|[k' v'] d IH]; intros Hk; [reflexivity|].
  cbn [dict_set]. cbn in Hk. apply not_elem_of_cons in Hk as [Hne Hk].
  destruct (String.eqb_spec k' k) as [->|_]; [contradiction|].
  rewrite IH by assumption. reflexivity.
Qed.

Lemma dict_set_middle k v v0 (pre post : Dict) :
  k ∉ map fst pre ->
  dict_set k v (pre ++ (k, v0) :: post) = pre ++ (k, v) :: post.
Proof.
  induction pre as [|[k' v'] pre IH]; intros Hk; cbn [dict_set app].
  - rewrite String.eqb_refl. reflexivity.
  - cbn in Hk. apply not_elem_of_cons in Hk as [Hne Hk].
    destruct (String.eqb_spec k' k) as [->|_]; [contradiction|].
    rewrite IH by assumption. reflexivity.
Qed.

End Dicts.

Section Repr.

Implicit Types (s : Store) (F : gset nat).

Lemma repr_dom_mut :
  (forall s v t F, repr s v t F -> F ⊆ dom s)
  /\ (forall s vs ts F, reprs s vs ts F -> F ⊆ dom s).
Proof.
  split; intros s.
  - apply (repr_mut s (fun _ _ F => F ⊆ dom s) (fun _ _ F => F ⊆ dom s));
      try set_solver.
    intros a d items F Ha _ _ _ _ IH. apply elem_of_dom_2 in Ha. set_solver.
  - apply (reprs_mut s (fun _ _ F => F ⊆ dom s) (fun _ _ F => F ⊆ dom s));
      try set_solver.
    intros a d items F Ha _ _ _ _ IH. apply elem_of_dom_2 in Ha. set_solver.
Qed.

Lemma repr_dom s v t F : repr s v t F -> F ⊆ dom s.
Proof. apply repr_dom_mut. Qed.

Lemma reprs_dom s vs ts F : reprs s vs ts F -> F ⊆ dom s.
Proof. apply repr_dom_mut. Qed.

Lemma repr_frame_mut :
  (forall s v t F, repr s v t F ->
     forall s', (forall a, a ∈ F -> s' !! a = s !! a) -> repr s' v t F)
  /\ (forall s vs ts F, reprs s vs ts F ->
     forall s', (forall a, a ∈ F -> s' !! a = s !! a) -> reprs s' vs ts F).
Proof.
  split; intros s.
  - apply (repr_mut s
             (fun v t F => forall s', (forall a, a ∈ F -> s' !! a = s !! a) -> repr s' v t F)
             (fun vs ts F => forall s', (forall a, a ∈ F -> s' !! a = s !! a) -> reprs s' vs ts F)).
    + constructor.
    + constructor.
    + intros k vs ts F _ IH s' Hs'. constructor. auto.
    + intros a d items F Ha Hnd Hk Hna _ IH s' Hs'.
      econstructor; eauto.
      * rewrite Hs' by set_solver. exact Ha.
      * apply IH. intros b Hb. apply Hs'. set_solver.
    + constructor.
    + intros v vs t ts F1 F2 _ IH1 _ IH2 Hdisj s' Hs'.
      constructor; [apply IH1|apply IH2|exact Hdisj];
        intros b Hb; apply Hs'; set_solver.
  - apply (reprs_mut s
             (fun v t F => forall s', (forall a, a ∈ F -> s' !! a = s !! a) -> repr s' v t F)
             (fun vs ts F => forall s', (forall a, a ∈ F -> s' !! a = s !! a) -> reprs s' vs ts F)).
    + constructor.
    + constructor.
    + intros k vs ts F _ IH s' Hs'. constructor. auto.
    + intros a d items F Ha Hnd Hk Hna _ IH s' Hs'.
      econstructor; eauto.
      * rewrite Hs' by set_solver. exact Ha.
      * apply IH. intros b Hb. apply Hs'. set_solver.
    + constructor.
    + intros v vs t ts F1 F2 _ IH1 _ IH2 Hdisj s' Hs'.
      constructor; [apply IH1|apply IH2|exact Hdisj];
        intros b Hb; apply Hs'; set_solver.
Qed.

Lemma repr_frame s s' v t F :
  repr s v t F -> (forall a, a ∈ F -> s' !! a = s !! a) -> repr s' v t F.
Proof. intros H. apply repr_frame_mut. exact H. Qed.

Lemma reprs_frame s s' vs ts F :
  reprs s vs ts F -> (forall a, a ∈ F -> s' !! a = s !! a) -> reprs s' vs ts F.
Proof. intros H. apply repr_frame_mut. exact H. Qed.

Lemma reprs_length s vs ts F : reprs s vs ts F -> length vs = length ts.
Proof. induction 1; cbn; congruence. Qed.

Lemma reprs_app s vs1 ts1 F1 :
  reprs s vs1 ts1 F1 ->
  forall vs2 ts2 F2, reprs s vs2 ts2 F2 -> F1 ## F2 ->
    reprs s (vs1 ++ vs2) (ts1 ++ ts2) (F1 ∪ F2).
Proof.
  induction 1 as [|v vs t ts Fa Fb Hv Hvs IH Hd]; intros vs2 ts2 F2 H2 Hdisj.
  - rewrite (left_id_L ∅ (∪)). exact H2.
  - cbn [app]. rewrite <- (assoc_L (∪)).
    constructor; [exact Hv|apply IH; [exact H2|set_solver]|].
    pose proof (reprs_dom _ _ _ _ Hvs). set_solver.
Qed.

Lemma reprs_snoc s vs ts F v t Fv :
  reprs s vs ts F -> repr s v t Fv -> F ## Fv ->
  reprs s (vs ++ [v]) (ts ++ [t]) (F ∪ Fv).
Proof.
  intros Hvs Hv Hd. apply reprs_app; [exact Hvs| |exact Hd].
  rewrite <- (right_id_L ∅ (∪) Fv). constructor; [exact Hv|constructor|set_solver].
Qed.

End Repr.

Section Filter.

Implicit Types (s : Store) (F : gset nat) (filter : PyVal -> M Store PyVal).

Lemma bind_ret {S A B} (m : M S A) (k : A -> M S B) st st' a :
  m st = (st', Ret a) -> bind m k st = k a st'.
Proof. unfold bind. intros ->. reflexivity. Qed.

Lemma setitem_run a k v s d :
  s !! a = Some d -> setitem a k v s = (<[a := dict_set k v d]> s, Ret tt).
Proof. intros H. unfold setitem, bind, load_dict. rewrite H. reflexivity. Qed.

Lemma str_not_in_seq i : str i ∉ str <$> seq 0 i.
Proof.
  intros Hin. apply list_elem_of_fmap in Hin as (j & Hj & Hin).
  apply (inj pretty) in Hj. subst j. apply elem_of_seq in Hin. lia.
Qed.

Lemma NoDup_str_seq n : NoDup (str <$> seq 0 n).
Proof. apply NoDup_fmap_2; [apply pretty_nat_inj|apply NoDup_seq]. Qed.

Lemma filter_enumerate_ok filter a :
  forall vs ts, Forall (filter_ok filter) ts ->
  forall s F i (acc : Dict) accT Facc,
    reprs s vs ts F ->
    s !! a = Some acc ->
    map fst acc = str <$> seq 0 i ->
    reprs s (map snd acc) accT Facc ->
    a ∉ F -> a ∉ Facc -> Facc ## F ->
    exists (s' : Store) (d' : Dict) F',
      filter_enumerate filter a i vs s = (s', Ret tt)
      /\ s' !! a = Some d'
      /\ map fst d' = str <$> seq 0 (i + length vs)
      /\ reprs s' (map snd d') (accT ++ map filter_spec ts) F'
      /\ a ∉ F'
      /\ F' ⊆ Facc ∪ F ∪ (dom s' ∖ dom s)
      /\ dom s ⊆ dom s'
      /\ (forall b, b ∈ dom s -> b ∉ F -> b ≠ a -> s' !! b = s !! b).
Proof.
  induction vs as [|v vs IH]; intros ts Hok s F i acc accT Facc Hvs Ha Hkeys Hacc HaF HaFacc Hdisj;
    inversion Hvs as [|v0 vs0 t ts' F1 F2 Hv Hvs' Hd12]; subst.
  - exists s, acc, Facc. cbn. rewrite Nat.add_0_r, app_nil_r.
    repeat split; auto; sets.
  - apply Forall_cons in Hok as [Hokt Hok].
    destruct (Hokt s v F1 Hv) as (s1 & r & F1' & Hrun & Hr & HF1' & Hdom1 & Hframe1 & _).
    pose proof (elem_of_dom_2 _ _ _ Ha) as Hadom.
    pose proof (repr_dom _ _ _ _ Hv) as HF1dom.
    pose proof (reprs_dom _ _ _ _ Hvs') as HF2dom.
    pose proof (reprs_dom _ _ _ _ Hacc) as HFaccdom.
    assert (Ha1 : s1 !! a = Some acc).
    { rewrite Hframe1; [exact Ha|exact Hadom|sets]. }
    set (s2 := <[a := acc ++ [(str i, r)]]> s1).
    assert (HaF1' : a ∉ F1') by sets.
    assert (Hs2 : forall b, b ∈ dom s -> b ∉ F1 -> b ≠ a -> s2 !! b = s !! b).
    { intros b Hb HbF Hba. unfold s2. rewrite lookup_insert_ne by congruence.
      apply Hframe1; assumption. }
    destruct (IH ts' Hok s2 F2 (S i) (acc ++ [(str i, r)]) (accT ++ [filter_spec t])
                (Facc ∪ F1'))
      as (s' & d' & F' & Hrun' & Ha' & Hkeys' & Hd' & HaF' & HF' & Hdom' & Hframe').
    + apply (reprs_frame s); [exact Hvs'|].
      intros b Hb. apply Hs2; sets.
    + unfold s2. apply lookup_insert_eq.
    + rewrite map_app, Hkeys, seq_S, fmap_app. reflexivity.
    + rewrite map_app. apply reprs_snoc.
      * apply (reprs_frame s); [exact Hacc|].
        intros b Hb. apply Hs2; sets.
      * apply (repr_frame s1); [exact Hr|].
        intros b Hb. unfold s2. apply lookup_insert_ne. sets.
      * sets.
    + sets.
    + sets.
    + sets.
    + exists s', d', F'.
      assert (Hdom2 : dom s2 = {[a]} ∪ dom s1) by (unfold s2; apply dom_insert_L).
      split.
      { cbn [filter_enumerate]. rewrite (bind_ret _ _ _ _ _ Hrun).
        erewrite bind_ret; [exact Hrun'|].
        rewrite (setitem_run _ _ _ _ _ Ha1).
        rewrite dict_set_fresh; [reflexivity|].
        rewrite Hkeys. apply str_not_in_seq. }
      split; [exact Ha'|].
      split. { rewrite Hkeys'. cbn [length]. f_equal. f_equal. lia. }
      split. { rewrite <- app_assoc in Hd'. exact Hd'. }
      split; [exact HaF'|].
      split. { sets. }
      split. { sets. }
      intros b Hb HbF Hba. rewrite Hframe'; [apply Hs2; sets|sets|sets|exact Hba].
Qed.

Lemma filter_items_ok filter a :
  forall (post : Dict) postT, Forall (filter_ok filter) postT ->
  forall s F (pre : Dict) preT Fpre,
    s !! a = Some (pre ++ post) ->
    NoDup (map fst (pre ++ post)) ->
    reprs s (map snd post) postT F ->
    reprs s (map snd pre) preT Fpre ->
    a ∉ F -> a ∉ Fpre -> Fpre ## F ->
    exists (s' : Store) (d' : Dict) F',
      filter_items filter a (length pre) (length post) s = (s', Ret tt)
      /\ s' !! a = Some d'
      /\ map fst d' = map fst (pre ++ post)
      /\ reprs s' (map snd d') (preT ++ map filter_spec postT) F'
      /\ a ∉ F'
      /\ F' ⊆ Fpre ∪ F ∪ (dom s' ∖ dom s)
      /\ dom s ⊆ dom s'
      /\ (forall b, b ∈ dom s -> b ∉ F -> b ≠ a -> s' !! b = s !! b).
Proof.
  induction post as [|[k v] post IH];
    intros postT Hok s F pre preT Fpre Ha Hnd Hpost Hpre HaF HaFpre Hdisj;
    inversion Hpost as [|v0 vs0 t ts' F1 F2 Hv Hvs' Hd12]; subst.
  - exists s, pre, Fpre. cbn. rewrite !app_nil_r in *.
    repeat split; auto; sets.
  - apply Forall_cons in Hok as [Hokt Hok].
    destruct (Hokt s v F1 Hv) as (s1 & r & F1' & Hrun & Hr & HF1' & Hdom1 & Hframe1 & _).
    pose proof (elem_of_dom_2 _ _ _ Ha) as Hadom.
    pose proof (repr_dom _ _ _ _ Hv) as HF1dom.
    pose proof (reprs_dom _ _ _ _ Hvs') as HF2dom.
    pose proof (reprs_dom _ _ _ _ Hpre) as HFpredom.
    assert (Ha1 : s1 !! a = Some (pre ++ (k, v) :: post)).
    { rewrite Hframe1; [exact Ha|exact Hadom|sets]. }
    set (s2 := <[a := (pre ++ [(k, r)]) ++ post]> s1).
    assert (HaF1' : a ∉ F1') by sets.
    assert (Hs2 : forall b, b ∈ dom s -> b ∉ F1 -> b ≠ a -> s2 !! b = s !! b).
    { intros b Hb HbF Hba. unfold s2. rewrite lookup_insert_ne by congruence.
      apply Hframe1; assumption. }
    assert (Hkpre : k ∉ map fst pre).
    { rewrite map_app in Hnd. apply NoDup_app in Hnd as (_ & Hnd & _).
      intros Hin. apply (Hnd k Hin). cbn. left. }
    destruct (IH ts' Hok s2 F2 (pre ++ [(k, r)]) (preT ++ [filter_spec t])
                (Fpre ∪ F1'))
      as (s' & d' & F' & Hrun' & Ha' & Hkeys' & Hd' & HaF' & HF' & Hdom' & Hframe').
    + unfold s2. apply lookup_insert_eq.
    + rewrite <- app_assoc. cbn [app].
      rewrite map_app in Hnd |- *. exact Hnd.
    + apply (reprs_frame s); [exact Hvs'|].
      intros b Hb. apply Hs2; sets.
    + rewrite map_app. apply reprs_snoc.
      * apply (reprs_frame s); [exact Hpre|].
        intros b Hb. apply Hs2; sets.
      * apply (repr_frame s1); [exact Hr|].
        intros b Hb. unfold s2. apply lookup_insert_ne. sets.
      * sets.
    + sets.
    + sets.
    + sets.
    + exists s', d', F'.
      assert (Hdom2 : dom s2 = {[a]} ∪ dom s1) by (unfold s2; apply dom_insert_L).
      split.
      { cbn [filter_items length]. unfold bind at 1, load_dict at 1. rewrite Ha.
        rewrite list_lookup_middle by reflexivity.
        rewrite (bind_ret _ _ _ _ _ Hrun).
        erewrite bind_ret.
        - rewrite length_app, Nat.add_1_r in Hrun'. exact Hrun'.
        - rewrite (setitem_run _ _ _ _ _ Ha1).
          rewrite dict_set_middle by exact Hkpre.
          unfold s2. rewrite <- app_assoc. reflexivity. }
      split; [exact Ha'|].
      split. { rewrite Hkeys'. rewrite <- app_assoc. rewrite !map_app. reflexivity. }
      split. { rewrite <- app_assoc in Hd'. exact Hd'. }
      split; [exact HaF'|].
      split. { sets. }
      split. { sets. }
      intros b Hb HbF Hba. rewrite Hframe'; [apply Hs2; sets|sets|sets|exact Hba].
Qed.

Lemma depth_seq_children k ts :
  Forall (fun t => depth t < depth (T_seq k ts)) ts.
Proof.
  cbn [depth]. induction ts as [|t ts IH]; constructor; cbn [foldr].
  - lia.
  - eapply Forall_impl; [exact IH|]. cbn. intros; lia.
Qed.

Lemma depth_dict_children (items : list (string * Tree)) :
  Forall (fun t => depth t < depth (T_dict items)) (map snd items).
Proof.
  cbn [depth]. induction items as [|[k t] items IH]; constructor; cbn [foldr snd].
  - lia.
  - eapply Forall_impl; [exact IH|]. cbn. intros; lia.
Qed.

Lemma imap_keys {A} (g : nat -> string) (l : list A) :
  map fst (imap (fun i t => (g i, t)) l) = g <$> seq 0 (length l).
Proof.
  revert g. induction l as [|x l IH]; intros g; [reflexivity|].
  cbn [imap length seq]. cbn. f_equal.
  change (g ∘ S) with (fun i => g (S i)) .
  rewrite <- fmap_S_seq, <- list_fmap_compose.
  exact (IH (fun i => g (S i))).
Qed.

Lemma imap_values {A} (g : nat -> string) (l : list A) :
  map snd (imap (fun i t => (g i, t)) l) = l.
Proof.
  revert g. induction l as [|x l IH]; intros g; [reflexivity|].
  cbn. f_equal. exact (IH (fun i => g (S i))).
Qed.

(** The filter refines [filter_spec]: on a value whose content is a tree
    of nesting depth below [fuel], it returns and does what [filter_ok]
    says. *)
Lemma filter_multidimensional_ok fuel :
  forall t, depth t < fuel -> filter_ok (filter_multidimensional fuel) t.
Proof.
  induction fuel as [|fuel IH]; intros t Hdepth; [lia|].
  intros s v F Hrepr.
  inversion Hrepr as [x|cls|k vs ts F0 Hvs|a d items F0 Ha Hnd Hkeys HaF Hvs]; subst.
  - cbn. destruct (is_prim x).
    + exists s, (V_scalar x), ∅. repeat split; try constructor; sets.
    + exists s, (V_scalar S_None), ∅. repeat split; try constructor; try sets.
      discriminate.
  - exists s, (V_scalar S_None), ∅. cbn. repeat split; try constructor; try sets.
    discriminate.
  - assert (Hok : Forall (filter_ok (filter_multidimensional fuel)) ts).
    { eapply Forall_impl; [apply (depth_seq_children k)|].
      cbn beta. intros t' Ht'. apply IH. lia. }
    cbn [filter_multidimensional filter_spec]. destruct (unrolls k).
    2:{ exists s, (V_scalar S_None), ∅. repeat split; try constructor; try sets.
        discriminate. }
    pose proof (reprs_dom _ _ _ _ Hvs) as HFdom.
    pose proof (is_fresh (dom s)) as Hfresh.
    set (a := fresh (dom s)) in *.
    set (s0 := <[a := []]> s).
    assert (Hdom0 : dom s0 = {[a]} ∪ dom s) by (unfold s0; apply dom_insert_L).
    destruct (filter_enumerate_ok (filter_multidimensional fuel) a vs ts Hok
                s0 F 0 [] [] ∅)
      as (s' & d' & F' & Hrun & Ha' & Hkeys' & Hd' & HaF' & HF' & Hdom' & Hframe').
    + apply (reprs_frame s); [exact Hvs|].
      intros b Hb. unfold s0. apply lookup_insert_ne. sets.
    + unfold s0. apply lookup_insert_eq.
    + reflexivity.
    + constructor.
    + sets.
    + sets.
    + sets.
    + exists s', (V_dict a), ({[a]} ∪ F').
      split.
      { unfold bind at 1, new_dict. fold a. fold s0.
        unfold bind. rewrite Hrun. reflexivity. }
      split.
      { cbn [app] in Hd'. cbn [plus] in Hkeys'.
        rewrite (reprs_length _ _ _ _ Hvs) in Hkeys'.
        apply (repr_dict s' a d'); auto.
        - rewrite Hkeys'. apply NoDup_str_seq.
        - rewrite imap_keys, Hkeys', length_map. reflexivity.
        - rewrite imap_values. exact Hd'. }
      pose proof (elem_of_dom_2 _ _ _ Ha') as Hadom'.
      split. { sets. }
      split. { sets. }
      split.
      { intros b Hb HbF. rewrite Hframe'; [|sets|exact HbF|sets].
        unfold s0. apply lookup_insert_ne. sets. }
      discriminate.
  - assert (Hok : Forall (filter_ok (filter_multidimensional fuel)) (map snd items)).
    { eapply Forall_impl; [apply depth_dict_children|].
      cbn beta. intros t' Ht'. apply IH. lia. }
    destruct (filter_items_ok (filter_multidimensional fuel) a d (map snd items) Hok
                s F0 [] [] ∅)
      as (s' & d' & F' & Hrun & Ha' & Hkeys' & Hd' & HaF' & HF' & Hdom' & Hframe').
    + exact Ha.
    + exact Hnd.
    + exact Hvs.
    + constructor.
    + exact HaF.
    + sets.
    + sets.
    + exists s', (V_dict a), ({[a]} ∪ F').
      split.
      { cbn [filter_multidimensional]. unfold bind at 1, load_dict at 1. rewrite Ha.
        cbn [length] in Hrun. unfold bind. rewrite Hrun. reflexivity. }
      split.
      { cbn [app] in Hd', Hkeys'. cbn [filter_spec].
        apply (repr_dict s' a d'); auto.
        - rewrite Hkeys'. exact Hnd.
        - rewrite Hkeys', Hkeys, map_map. reflexivity.
        - rewrite map_map. cbn [snd]. rewrite map_map in Hd'. exact Hd'. }
      split. { sets. }
      split. { sets. }
      split.
      { intros b Hb HbF. apply Hframe'; sets. }
      reflexivity.
Qed.

End Filter.

Section Trees.

Lemma Tree_ind' (P : Tree -> Prop) :
  (forall x, P (T_scalar x)) ->
  (forall cls, P (T_object cls)) ->
  (forall k ts, Forall P ts -> P (T_seq k ts)) ->
  (forall items, Forall (fun kt => P (snd kt)) items -> P (T_dict items)) ->
  forall t, P t.
Proof.
  intros Hs Ho Hseq Hd. fix IH 1. intros [x|cls|k ts|items].
  - apply Hs.
  - apply Ho.
  - apply Hseq. induction ts as [|t ts IHts]; constructor; [apply IH|exact IHts].
  - apply Hd. induction items as [|kt items IHi]; constructor; [apply IH|exact IHi].
Qed.

Lemma filter_spec_seq k ts :
  unrolls k = true ->
  filter_spec (T_seq k ts) = T_dict (imap (fun i t => (str i, filter_spec t)) ts).
Proof. intros H. cbn. rewrite H. rewrite imap_fmap. reflexivity. Qed.

Lemma map_imap_filter_spec (g : nat -> string) ts :
  Forall (fun t => filter_spec (filter_spec t) = filter_spec t) ts ->
  map (fun kt : string * Tree => (fst kt, filter_spec (snd kt)))
      (imap (fun i t => (g i, t)) (map filter_spec ts))
  = imap (fun i t => (g i, t)) (map filter_spec ts).
Proof.
  intros H. revert g. induction H as [|t ts Ht _ IHts]; intros g; [reflexivity|].
  cbn. rewrite Ht. f_equal. apply (IHts (g ∘ S)).
Qed.

Lemma filter_spec_idemp t : filter_spec (filter_spec t) = filter_spec t.
Proof.
  induction t as [x|cls|k ts IH|items IH] using Tree_ind'.
  - cbn. destruct (is_prim x) eqn:E; cbn; [rewrite E|]; reflexivity.
  - reflexivity.
  - cbn [filter_spec]. destruct (unrolls k); [|reflexivity].
    cbn [filter_spec]. f_equal. apply map_imap_filter_spec. exact IH.
  - cbn [filter_spec]. f_equal. rewrite map_map. cbn [fst snd].
    induction IH as [|kt items Ht _ IHi]; [reflexivity|].
    cbn. rewrite Ht, IHi. reflexivity.
Qed.

Lemma foldr_max_imap (g : nat -> string) (ts : list Tree) :
  foldr (fun (kt : string * Tree) acc => Nat.max (depth (snd kt)) acc) 0
        (imap (fun i t => (g i, t)) ts)
  = foldr (fun t acc => Nat.max (depth t) acc) 0 ts.
Proof.
  revert g. induction ts as [|t ts IH]; intros g; [reflexivity|].
  cbn. f_equal. apply (IH (fun i => g (S i))).
Qed.

Lemma depth_filter_spec t : depth (filter_spec t) <= depth t.
Proof.
  induction t as [x|cls|k ts IH|items IH] using Tree_ind'.
  - cbn. destruct (is_prim x); cbn; lia.
  - cbn. lia.
  - cbn [filter_spec]. destruct (unrolls k); [|cbn; lia].
    cbn [depth]. rewrite foldr_max_imap. apply le_n_S.
    induction IH as [|t ts Ht _ IHts]; [reflexivity|]. cbn. lia.
  - cbn [filter_spec depth]. apply le_n_S.
    induction IH as [|kt items Ht _ IHi]; [reflexivity|]. cbn. lia.
Qed.

End Trees.

Section Alloc.

Implicit Types (s : Store) (F : gset nat).

Lemma for_each_cons {S A B} (f : A -> M S B) x l st st1 st2 y ys :
  f x st = (st1, Ret y) ->
  for_each f l st1 = (st2, Ret ys) ->
  for_each f (x :: l) st = (st2, Ret (y :: ys)).
Proof. intros H1 H2. cbn [for_each]. unfold bind. rewrite H1, H2. reflexivity. Qed.

Lemma for_each_alloc_ok ts :
  Forall alloc_ok ts ->
  forall s, forallb keys_distinct ts = true ->
    exists (s' : Store) vs F,
      for_each alloc ts s = (s', Ret vs)
      /\ reprs s' vs ts F
      /\ F ## dom s
      /\ dom s ⊆ dom s'
      /\ (forall b, b ∈ dom s -> s' !! b = s !! b).
Proof.
  induction 1 as [|t ts Ht _ IH]; intros s Hk.
  - exists s, [], ∅. repeat split; try constructor; sets.
  - cbn in Hk. apply andb_prop in Hk as [Hkt Hk].
    destruct (Ht s Hkt) as (s1 & v & F1 & Hrun & Hv & HF1 & Hdom1 & Hfr1).
    destruct (IH s1 Hk) as (s2 & vs & F2 & Hrun2 & Hvs & HF2 & Hdom2 & Hfr2).
    pose proof (repr_dom _ _ _ _ Hv) as HF1dom.
    exists s2, (v :: vs), (F1 ∪ F2).
    split. { eapply for_each_cons; eassumption. }
    split. { constructor; [|exact Hvs|sets].
             apply (repr_frame s1); [exact Hv|]. intros b Hb. apply Hfr2. sets. }
    split. { sets. }
    split. { sets. }
    intros b Hb. rewrite Hfr2 by sets. apply Hfr1. exact Hb.
Qed.

Lemma for_each_alloc_items_ok (items : list (string * Tree)) :
  Forall (fun kt => alloc_ok (snd kt)) items ->
  forall s, forallb (fun kt => keys_distinct (snd kt)) items = true ->
    exists (s' : Store) (d : Dict) F,
      for_each (fun kt => bind (alloc (snd kt)) (fun v => ret (fst kt, v))) items s
      = (s', Ret d)
      /\ map fst d = map fst items
      /\ reprs s' (map snd d) (map snd items) F
      /\ F ## dom s
      /\ dom s ⊆ dom s'
      /\ (forall b, b ∈ dom s -> s' !! b = s !! b).
Proof.
  induction 1 as [|[k t] items Ht _ IH]; intros s Hk.
  - exists s, [], ∅. repeat split; try constructor; sets.
  - cbn in Hk. apply andb_prop in Hk as [Hkt Hk]. cbn [snd] in Ht.
    destruct (Ht s Hkt) as (s1 & v & F1 & Hrun & Hv & HF1 & Hdom1 & Hfr1).
    destruct (IH s1 Hk) as (s2 & d & F2 & Hrun2 & Hkeys & Hvs & HF2 & Hdom2 & Hfr2).
    pose proof (repr_dom _ _ _ _ Hv) as HF1dom.
    exists s2, ((k, v) :: d), (F1 ∪ F2).
    split.
    { eapply for_each_cons; [|exact Hrun2].
      cbn beta. cbn [fst snd]. unfold bind. rewrite Hrun. reflexivity. }
    split. { cbn. rewrite Hkeys. reflexivity. }
    split. { cbn [map snd]. constructor; [|exact Hvs|sets].
             apply (repr_frame s1); [exact Hv|]. intros b Hb. apply Hfr2. sets. }
    split. { sets. }
    split. { sets. }
    intros b Hb. rewrite Hfr2 by sets. apply Hfr1. exact Hb.
Qed.

Lemma alloc_repr t : alloc_ok t.
Proof.
  induction t as [x|cls|k ts IH|items IH] using Tree_ind'; intros s Hk.
  - exists s, (V_scalar x), ∅. repeat split; try constructor; sets.
  - exists s, (V_object cls), ∅. repeat split; try constructor; sets.
  - cbn [keys_distinct] in Hk.
    destruct (for_each_alloc_ok ts IH s Hk) as (s' & vs & F & Hrun & Hvs & HF & Hdom & Hfr).
    exists s', (V_seq k vs), F.
    split. { cbn [alloc]. unfold bind. rewrite Hrun. reflexivity. }
    split. { constructor. exact Hvs. }
    auto.
  - cbn [keys_distinct] in Hk. apply andb_prop in Hk as [Hnd Hk].
    apply bool_decide_eq_true in Hnd.
    destruct (for_each_alloc_items_ok items IH s Hk)
      as (s1 & d & F & Hrun & Hkeys & Hvs & HF & Hdom & Hfr).
    pose proof (reprs_dom _ _ _ _ Hvs) as HFdom.
    pose proof (is_fresh (dom s1)) as Hfresh.
    set (a := fresh (dom s1)) in *.
    assert (Hne : forall b, b ∈ dom s1 -> a ≠ b) by (intros b Hb ->; contradiction).
    exists (<[a := d]> (<[a := []]> s1)), (V_dict a), ({[a]} ∪ F).
    split. { cbn [alloc]. unfold bind at 1. rewrite Hrun.
             unfold bind, new_dict, ret. fold a. reflexivity. }
    split.
    { apply (repr_dict _ a d).
      - apply lookup_insert_eq.
      - rewrite Hkeys. exact Hnd.
      - exact Hkeys.
      - sets.
      - apply (reprs_frame s1); [exact Hvs|].
        intros b Hb. rewrite !lookup_insert_ne by (apply Hne; sets). reflexivity. }
    split. { sets. }
    split. { rewrite !dom_insert_L. sets. }
    intros b Hb. rewrite !lookup_insert_ne by (apply Hne; sets). apply Hfr. exact Hb.
Qed.

Lemma repr_reify_mut s fuel :
  (forall v t F, repr s v t F -> forall n, depth t < n -> n <= fuel ->
      reify n s v = Some t)
  /\ (forall vs ts F, reprs s vs ts F -> forall n, Forall (fun t => depth t < n) ts ->
      n <= fuel -> Forall2 (fun v t => reify n s v = Some t) vs ts).
Proof.
  induction fuel as [|fuel IHfuel].
  - split.
    + intros v t F _ n Hd Hn. lia.
    + intros vs ts F Hvs n Hd Hn. destruct Hvs; [constructor|].
      apply Forall_cons in Hd as [Hd _]. lia.
  - destruct IHfuel as [IH1 IH2].
    assert (Hlist : forall vs ts F, reprs s vs ts F ->
              forall n, Forall (fun t => depth t < n) ts -> n <= S fuel ->
              (forall v t F, repr s v t F -> depth t < n -> reify n s v = Some t) ->
              Forall2 (fun v t => reify n s v = Some t) vs ts).
    { induction 1 as [|v vs t ts F1 F2 Hv Hvs IHvs Hd]; intros n Hdep Hn Hone.
      - constructor.
      - apply Forall_cons in Hdep as [Hdt Hdep]. constructor.
        + eapply Hone; eauto.
        + apply IHvs; auto. }
    assert (Hone : forall v t F, repr s v t F -> forall n, depth t < n -> n <= S fuel ->
              reify n s v = Some t).
    { intros v t F Hv n Hd Hn. destruct n as [|n]; [lia|].
      inversion Hv as [x|cls|k vs ts F0 Hvs|a d items F0 Ha Hnd Hkeys HaF Hvs]; subst.
      - reflexivity.
      - reflexivity.
      - cbn [reify].
        assert (Hm : mapM (reify n s) vs = Some ts).
        { apply mapM_Some. eapply IH2; [exact Hvs| |lia].
          eapply Forall_impl; [apply (depth_seq_children k)|]. cbn beta. intros; lia. }
        rewrite Hm. reflexivity.
      - cbn [reify]. rewrite Ha. cbn.
        assert (Hm : mapM (fun kv => pair (fst kv) <$> reify n s (snd kv)) d = Some items).
        { apply mapM_Some.
          assert (Hf : Forall2 (fun v t => reify n s v = Some t) (map snd d) (map snd items)).
          { eapply IH2; [exact Hvs| |lia].
            eapply Forall_impl; [apply depth_dict_children|]. cbn beta. intros; lia. }
          clear -Hf Hkeys. revert items Hf Hkeys.
          induction d as [|[k v] d IHd]; intros [|[k' t] items] Hf Hkeys;
            try discriminate; [constructor|].
          cbn in Hf, Hkeys. inversion Hf; subst. injection Hkeys as -> Hkeys.
          constructor; [cbn; rewrite H2; reflexivity|]. apply IHd; assumption. }
        rewrite Hm. reflexivity. }
    split; [exact Hone|].
    intros vs ts F Hvs n Hd Hn. eapply Hlist; eauto.
Qed.

Lemma repr_reify s v t F n : repr s v t F -> depth t < n -> reify n s v = Some t.
Proof. intros H Hd. eapply (proj1 (repr_reify_mut s n)); eauto. Qed.

End Alloc.

(* ===================================================================== *)
(** * The filter on decoded messages                                      *)
(* ===================================================================== *)

Section FilterDecoded.

Implicit Types (s : Store) (t : Tree).

(** Decoding a tree and filtering it: the call returns, the result has
    content [filter_spec t], the dicts that were in the store before are
    untouched, and a dict argument is returned itself. *)
Lemma filter_decoded_ok t s fuel :
  keys_distinct t = true -> depth t < fuel ->
  exists (s1 s2 : Store) v v' F F',
    filter_decoded fuel t s = (s1, s2, v, Ret v')
    /\ repr s1 v t F
    /\ repr s2 v' (filter_spec t) F'
    /\ (forall b, b ∈ dom s -> s2 !! b = s !! b)
    /\ (forall a, v = V_dict a -> v' = v).
Proof.
  intros Hk Hd.
  destruct (alloc_repr t s Hk) as (s1 & v & F & Hrun & Hv & HF & Hdom & Hfr).
  destruct (filter_multidimensional_ok fuel t Hd s1 v F Hv)
    as (s2 & v' & F' & Hrun' & Hv' & HF' & Hdom' & Hfr' & Hsame).
  exists s1, s2, v, v', F, F'.
  split. { unfold filter_decoded. rewrite Hrun, Hrun'. reflexivity. }
  split; [exact Hv|]. split; [exact Hv'|]. split; [|exact Hsame].
  intros b Hb. rewrite Hfr'; [apply Hfr; exact Hb|sets|sets].
Qed.

Lemma filtered_content_ok t s fuel :
  keys_distinct t = true -> depth t < fuel ->
  filtered_content fuel t s = Some (filter_spec t).
Proof.
  intros Hk Hd.
  destruct (filter_decoded_ok t s fuel Hk Hd)
    as (s1 & s2 & v & v' & F & F' & Hrun & _ & Hv' & _).
  unfold filtered_content. rewrite Hrun.
  apply (repr_reify _ _ _ _ _ Hv').
  pose proof (depth_filter_spec t). lia.
Qed.

End FilterDecoded.

(** C3, as the specification states it, fails: what the filter returns
    for {a: {x: 1, y: 2}, b: [10, 20, 30]} is not the flat record with
    the keys a__x, a__y, b__0, b__1, b__2. *)
Lemma filter_output_not_flat :
  filtered_content 3 msg_ab ∅ <> Some (T_dict flat_ab).
Proof. vm_compute. discriminate. Qed.

(** C8, as the specification states it, fails: the decoded message
    passed to the filter is not left unchanged. After the call the
    argument {a: {x: 1, y: 2}, b: [10, 20, 30]} holds a mapping where it
    held the list [b]. *)
Lemma filter_changes_argument :
  ~ (forall t s fuel,
        keys_distinct t = true -> depth t < fuel ->
        argument_after fuel t s = Some t).
Proof.
  intros H. specialize (H msg_ab ∅ 3 eq_refl).
  assert (Hd : depth msg_ab < 3) by (vm_compute; lia).
  specialize (H Hd). vm_compute in H. discriminate H.
Qed.

(** C4 (X14): on every decoded value (a finite tree of mappings, sequences,
    scalars and other objects) the filter returns, without raising, a
    value whose content is [filter_spec] of the input; a list, tuple or
    one-dimensional array becomes the mapping from stringified index to
    filtered element; an array of another rank, a scalar outside
    PRIM_TYPES and any other object become [None]; and a field [m]
    holding a two-dimensional array yields {m: None}. *)
Theorem filter_total_null_policy :
  (forall t s fuel,
      keys_distinct t = true -> depth t < fuel ->
      exists s1 s2 v v',
        filter_decoded fuel t s = (s1, s2, v, Ret v')
        /\ reify fuel s2 v' = Some (filter_spec t))
  /\ (forall k ts,
        unrolls k = true ->
        filter_spec (T_seq k ts)
        = T_dict (imap (fun i t => (str i, filter_spec t)) ts))
  /\ (forall fuel s k vs,
        unrolls k = false ->
        filter_multidimensional (S fuel) (V_seq k vs) s = (s, Ret (V_scalar S_None)))
  /\ (forall fuel s x,
        is_prim x = false ->
        filter_multidimensional (S fuel) (V_scalar x) s = (s, Ret (V_scalar S_None)))
  /\ (forall fuel s cls,
        filter_multidimensional (S fuel) (V_object cls) s = (s, Ret (V_scalar S_None)))
  /\ filtered_content 3 msg_m ∅ = Some (T_dict [("m", T_scalar S_None)]).
Proof.
  split.
  { intros t s fuel Hk Hd.
    destruct (filter_decoded_ok t s fuel Hk Hd)
      as (s1 & s2 & v & v' & F & F' & Hrun & _ & Hv' & _).
    exists s1, s2, v, v'. split; [exact Hrun|].
    apply (repr_reify _ _ _ _ _ Hv'). pose proof (depth_filter_spec t). lia. }
  split; [exact filter_spec_seq|].
  split. { intros fuel s k vs H. cbn. rewrite H. reflexivity. }
  split. { intros fuel s x H. cbn. rewrite H. reflexivity. }
  split. { reflexivity. }
  vm_compute. reflexivity.
Qed.

Lemma filter_total_null_policy_witness :
  exists s1 s2 v v',
    filter_decoded 4 msg_m ∅ = (s1, s2, v, Ret v')
    /\ reify 4 s2 v' = Some (filter_spec msg_m).
Proof.
  refine (proj1 filter_total_null_policy msg_m ∅ 4 eq_refl _).
  vm_compute. lia.
Defined.

(** C8 (amended; X15): the filter reads nothing but the value passed to it:
    for a decoded value [t], whatever else the store holds, it returns a
    value with content [filter_spec t] and leaves every dict that is not
    part of the argument as it was. It does change its argument: a dict
    argument is updated in place and returned itself, so that afterwards
    the argument holds [filter_spec t]. Filtering the returned value again
    changes nothing more and yields the same content. *)
Theorem filter_effects t s fuel :
  keys_distinct t = true -> depth t < fuel ->
  exists (s1 s2 : Store) v v',
    filter_decoded fuel t s = (s1, s2, v, Ret v')
    /\ reify fuel s1 v = Some t
    /\ reify fuel s2 v' = Some (filter_spec t)
    /\ (forall b, b ∈ dom s -> s2 !! b = s !! b)
    /\ (forall items, t = T_dict items ->
          v' = v /\ reify fuel s2 v = Some (filter_spec t))
    /\ exists (s3 : Store) v'',
         filter_multidimensional fuel v' s2 = (s3, Ret v'')
         /\ reify fuel s3 v'' = Some (filter_spec t).
Proof.
  intros Hk Hd.
  destruct (filter_decoded_ok t s fuel Hk Hd)
    as (s1 & s2 & v & v' & F & F' & Hrun & Hv & Hv' & Hfr & Hsame).
  pose proof (depth_filter_spec t) as Hdf.
  assert (Hdf' : depth (filter_spec t) < fuel) by lia.
  exists s1, s2, v, v'.
  split; [exact Hrun|].
  split. { apply (repr_reify _ _ _ _ _ Hv). exact Hd. }
  split. { apply (repr_reify _ _ _ _ _ Hv'). exact Hdf'. }
  split; [exact Hfr|].
  split.
  { intros items ->. inversion Hv; subst.
    rewrite (Hsame _ eq_refl) in Hv' |- *. split; [reflexivity|].
    apply (repr_reify _ _ _ _ _ Hv'). exact Hdf'. }
  destruct (filter_multidimensional_ok fuel (filter_spec t) Hdf' s2 v' F' Hv')
    as (s3 & v'' & F'' & Hrun2 & Hv'' & _ & _ & _ & Hsame2).
  rewrite filter_spec_idemp in Hv''.
  exists s3, v''. split; [exact Hrun2|].
  apply (repr_reify _ _ _ _ _ Hv''). exact Hdf'.
Qed.

Lemma filter_effects_witness :
  exists (s1 s2 : Store) v v',
    filter_decoded 3 msg_ab ∅ = (s1, s2, v, Ret v')
    /\ reify 3 s1 v = Some msg_ab
    /\ reify 3 s2 v' = Some (filter_spec msg_ab)
    /\ (forall b, b ∈ dom (∅ : Store) -> s2 !! b = (∅ : Store) !! b)
    /\ (forall items, msg_ab = T_dict items ->
          v' = v /\ reify 3 s2 v = Some (filter_spec msg_ab))
    /\ exists (s3 : Store) v'',
         filter_multidimensional 3 v' s2 = (s3, Ret v'')
         /\ reify 3 s3 v'' = Some (filter_spec msg_ab).
Proof.
  refine (filter_effects msg_ab ∅ 3 eq_refl _).
  vm_compute. lia.
Defined.

(* ===================================================================== *)
(** * Reading messages                                                    *)
(* ===================================================================== *)

Section DictOps.

Implicit Types (d : Dict) (k : string) (v : PyVal).


Lemma dict_set_keys k v d :
  map fst (dict_set k v d)
  = if bool_decide (k ∈ map fst d) then map fst d else map fst d ++ [k].
Proof.
  induction d as [|[k' v'] d IH]; cbn [dict_set map fst].
  - reflexivity.
  - destruct (String.eqb_spec k' k) as [->|Hne]; cbn [map fst].
    + rewrite bool_decide_eq_true_2 by left. reflexivity.
    + rewrite IH. destruct (bool_decide (k ∈ map fst d)) eqn:E.
      * apply bool_decide_eq_true in E.
        rewrite bool_decide_eq_true_2 by (right; exact E). reflexivity.
      * apply bool_decide_eq_false in E.
        rewrite bool_decide_eq_false_2; [reflexivity|].
        intros Hin. apply elem_of_cons in Hin as [->|Hin]; contradiction.
Qed.



Lemma dict_del_Some k d :
  k ∈ map fst d -> exists d', dict_del k d = Some d'.
Proof.
  induction d as [|[k' v'] d IH]; cbn; intros Hin.
  - apply elem_of_nil in Hin. contradiction.
  - destruct (String.eqb_spec k' k) as [->|Hne]; [eexists; reflexivity|].
    apply elem_of_cons in Hin as [->|Hin]; [contradiction|].
    destruct (IH Hin) as [d' ->]. eexists; reflexivity.
Qed.


End DictOps.

Section ReadMessage.

Implicit Types (s : Store).

(** The filter on a decoded dict: it returns the dict itself, whose keys
    are still those of the message. *)
Lemma filter_decoded_dict items s fuel :
  keys_distinct (T_dict items) = true -> depth (T_dict items) < fuel ->
  exists (s1 s2 : Store) a (d : Dict),
    alloc (T_dict items) s = (s1, Ret (V_dict a))
    /\ filter_multidimensional fuel (V_dict a) s1 = (s2, Ret (V_dict a))
    /\ s2 !! a = Some d
    /\ NoDup (map fst d)
    /\ map fst d = map fst items.
Proof.
  intros Hk Hd.
  destruct (alloc_repr (T_dict items) s Hk) as (s1 & v & F & Hrun & Hv & _).
  destruct (filter_multidimensional_ok fuel _ Hd s1 v F Hv)
    as (s2 & v' & F' & Hrun' & Hv' & _ & _ & _ & Hsame).
  inversion Hv as [| | |a0 d0 items0 G0 _ _ _ _ _]; subst.
  rewrite (Hsame _ eq_refl) in Hrun', Hv'.
  cbn [filter_spec] in Hv'.
  inversion Hv' as [| | |a' d' items' G1 Ha Hnd Hkeys HaF Hvs]; subst.
  exists s1, s2, a0, d'. repeat split; auto.
  rewrite Hkeys, map_map. reflexivity.
Qed.


(** The step on a filtered message dict [d] at address [a]: 'ts' is set,
    then '__msgtype__' is deleted, if it is there. *)
Lemma read_message_step_run fuel conn_topic ts ms (s1 s2 : Store) a (d : Dict) :
  filter_multidimensional fuel (V_dict a) s1 = (s2, Ret (V_dict a)) ->
  s2 !! a = Some d ->
  ts_ms ts = Some ms ->
  read_message_step fuel conn_topic ts (V_dict a) s1
  = match dict_del "__msgtype__" (dict_set "ts" (V_scalar (S_int ms)) d) with
    | Some d' =>
        (<[a := d']> (<[a := dict_set "ts" (V_scalar (S_int ms)) d]> s2),
         Ret (format_name conn_topic, V_dict a))
    | None =>
        (<[a := dict_set "ts" (V_scalar (S_int ms)) d]> s2,
         Raise (KeyError "__msgtype__"))
    end.
Proof.
  intros Hfilter Ha Hms. unfold read_message_step.
  rewrite (bind_ret _ _ _ _ _ Hfilter). rewrite Hms.
  cbn [setitem_val delitem_val].
  erewrite bind_ret; [|apply (setitem_run _ _ _ _ _ Ha)].
  unfold bind at 1. unfold bind at 1. unfold load_dict.
  rewrite lookup_insert_eq.
  destruct (dict_del "__msgtype__" (dict_set "ts" (V_scalar (S_int ms)) d));
    reflexivity.
Qed.

(** [MS_IN_NS] is the binary64 number nearest to 10^-6: its mantissa has
    53 bits and is within half a unit of 2^72 / 10^6. *)
Lemma MS_IN_NS_nearest :
  MS_IN_NS = S754_finite false 4722366482869645 (-72)
  /\ (2 ^ 52 <= 4722366482869645 < 2 ^ 53)%Z
  /\ (2 * Z.abs (4722366482869645 * 10 ^ 6 - 2 ^ 72) <= 10 ^ 6)%Z.
Proof. repeat split; vm_compute; congruence. Qed.

End ReadMessage.



(* ===================================================================== *)
(** * The topic table                                                     *)
(* ===================================================================== *)

Section Strings.




End Strings.

Section Normalise.

Implicit Types (r acc : Record_) (p sep ks k : string).




End Normalise.

Section Tables.

Implicit Types (r : Record_) (records : list Record_) (cols : list string).


Lemma existsb_eqb_elem_of k cols : existsb (String.eqb k) cols = true <-> k ∈ cols.
Proof.
  induction cols as [|c cols IH]; cbn.
  - split; [discriminate|]. intros H. apply elem_of_nil in H. contradiction.
  - rewrite orb_true_iff, IH, elem_of_cons, String.eqb_eq. reflexivity.
Qed.


Lemma add_column_NoDup cols k : NoDup cols -> NoDup (add_column cols k).
Proof.
  intros Hnd. unfold add_column. destruct (existsb (String.eqb k) cols) eqn:E;
    [exact Hnd|].
  apply NoDup_app. split; [exact Hnd|]. split; [|apply NoDup_singleton].
  intros x Hx Hin. apply list_elem_of_singleton in Hin as ->.
  apply existsb_eqb_elem_of in Hx. congruence.
Qed.


Lemma add_columns_NoDup ks : forall cols,
  NoDup cols -> NoDup (fold_left add_column ks cols).
Proof.
  induction ks as [|k ks IH]; intros cols Hnd; [exact Hnd|].
  cbn [fold_left]. apply IH, add_column_NoDup, Hnd.
Qed.


Lemma union_columns_NoDup_from records : forall cols,
  NoDup cols ->
  NoDup (fold_left (fun cols r => fold_left add_column (map fst r) cols) records cols).
Proof.
  induction records as [|r records IH]; intros cols Hnd; [exact Hnd|].
  cbn [fold_left]. apply IH, add_columns_NoDup, Hnd.
Qed.



Lemma column_index_None c cols : c ∉ cols -> column_index c cols = None.
Proof.
  induction cols as [|c' cols IH]; intros Hin; [reflexivity|].
  cbn [column_index]. apply not_elem_of_cons in Hin as [Hne Hin].
  destruct (String.eqb_spec c' c) as [->|_]; [contradiction|].
  rewrite (IH Hin). reflexivity.
Qed.

End Tables.

Section RecordsMore.

Implicit Types (r acc : Record_).






End RecordsMore.

Section AsDf.

Implicit Types (s : Store) (records : list Record_).



(** What [as_df] computes, when it returns a table: the flat records of
    the messages, read from the store, and their table. *)
Lemma as_df_Some fuel s topic df :
  as_df fuel s topic = Some df ->
  exists data records,
    mapM (reify fuel s) (messages topic) = Some data
    /\ mapM (fun row => simple_json_normalize row SEPARATOR) data = Some records
    /\ df = DataFrame_of_records records.
Proof.
  unfold as_df. destruct (mapM (reify fuel s) (messages topic)) as [data|] eqn:E;
    [|discriminate].
  destruct data as [|row data]; cbn [json_normalize].
  - intros [= <-]. exists [], []. repeat split; reflexivity.
  - destruct (mapM _ (row :: data)) as [records|] eqn:E2; [|discriminate].
    intros [= <-]. exists (row :: data), records. repeat split; auto.
Qed.

End AsDf.



(** X5: when [as_df] returns a table, it has one row per accumulated
    message, every row has one cell per column, and no column label
    occurs twice. *)
Theorem as_df_shape fuel s topic df :
  as_df fuel s topic = Some df ->
  length (rows df) = message_count topic
  /\ Forall (fun row => length row = length (columns df)) (rows df)
  /\ NoDup (columns df).
Proof.
  intros Hdf.
  destruct (as_df_Some _ _ _ _ Hdf) as (data & records & Hdata & Hrec & ->).
  cbn [DataFrame_of_records rows columns]. split; [|split].
  - rewrite length_map. unfold message_count.
    apply length_mapM in Hdata, Hrec. congruence.
  - apply Forall_forall. intros row Hrow.
    apply list_elem_of_fmap in Hrow as (r & -> & _). apply length_map.
  - apply union_columns_NoDup_from. constructor.
Qed.

Lemma as_df_shape_witness :
  exists df,
    table_b3_b2 = Some df
    /\ length (rows df) = 2
    /\ Forall (fun row => length row = length (columns df)) (rows df)
    /\ NoDup (columns df).
Proof.
  pose (run := bind (ingest 3 msg_b3 (Topic_init "/b" []))
                    (fun t1 => ingest 3 msg_b2 t1) (∅ : Store)).
  pose (s := fst run).
  pose (topic := match snd run with Ret t => t | _ => Topic_init "/b" [] end).
  exists (default (mkDataFrame [] []) (as_df 3 s topic)).
  split; [vm_compute; reflexivity|].
  exact (as_df_shape 3 s topic _ ltac:(vm_compute; reflexivity)).
Defined.



(* ===================================================================== *)
(** * Further properties of the names                                     *)
(* ===================================================================== *)

Section Names.

Lemma replace_slash_no_slash s : has_slash (replace_slash SEPARATOR s) = false.
Proof.
  induction s as [|c s IH]; [reflexivity|].
  cbn [replace_slash]. destruct (Ascii.eqb c "/") eqn:E.
  - cbn. exact IH.
  - cbn [has_slash]. rewrite E. exact IH.
Qed.

Lemma replace_slash_id s : has_slash s = false -> replace_slash SEPARATOR s = s.
Proof.
  induction s as [|c s IH]; [reflexivity|].
  cbn [has_slash replace_slash]. destruct (Ascii.eqb c "/"); [discriminate|].
  cbn. intros H. rewrite (IH H). reflexivity.
Qed.

Lemma no_slash_startswith s : has_slash s = false -> startswith_slash s = false.
Proof. destruct s as [|c s]; [reflexivity|]. cbn. destruct (Ascii.eqb c "/"); auto. Qed.

Lemma endswith_spec s suffix :
  endswith s suffix = true <-> exists stem, s = stem +:+ suffix.
Proof.
  induction s as [|c s IH]; cbn [endswith].
  - rewrite orb_false_r, String.eqb_eq. split.
    + intros <-. exists "". reflexivity.
    + intros [stem H]. destruct stem; [exact H|discriminate].
  - rewrite orb_true_iff, String.eqb_eq, IH. split.
    + intros [<-|[stem ->]]; [exists ""; reflexivity|].
      exists (String c stem). reflexivity.
    + intros [[|c' stem] H]; [left; exact H|].
      right. injection H as <- ->. exists stem. reflexivity.
Qed.

End Names.

(** X6: a normalized name contains no path separator; a name without one is
    left as it is; so normalizing twice is the same as normalizing once:
    a topic is found under the same key at registration and at
    ingestion. *)
Theorem format_name_idempotent name :
  has_slash (format_name name) = false
  /\ (has_slash name = false -> format_name name = name)
  /\ format_name (format_name name) = format_name name.
Proof.
  assert (H1 : has_slash (format_name name) = false)
    by (unfold format_name; apply replace_slash_no_slash).
  assert (H2 : forall n, has_slash n = false -> format_name n = n).
  { intros n Hn. unfold format_name. rewrite (no_slash_startswith n Hn).
    apply replace_slash_id. exact Hn. }
  split; [exact H1|]. split; [apply H2|]. apply H2. exact H1.
Qed.

Lemma format_name_idempotent_witness :
  has_slash "imu_raw" = false /\ format_name "imu_raw" = "imu_raw".
Proof.
  split; [reflexivity|].
  exact (proj1 (proj2 (format_name_idempotent "imu_raw")) eq_refl).
Defined.

(** X7: [is_rosbag] accepts exactly the file names that end in ".bag", and
    the guard of the constructor raises [TypeError] naming the file for
    every other name. *)
Theorem is_rosbag_spec file :
  (is_rosbag file = true <-> exists stem, file = stem +:+ ".bag")
  /\ (check_is_rosbag file = Ret tt <-> exists stem, file = stem +:+ ".bag")
  /\ ((forall stem, file <> stem +:+ ".bag") ->
      check_is_rosbag file = Raise (TypeError ("Not a rosbag file: " +:+ file))).
Proof.
  assert (H : is_rosbag file = true <-> exists stem, file = stem +:+ ".bag")
    by apply endswith_spec.
  split; [exact H|]. unfold check_is_rosbag. split.
  - rewrite <- H. destruct (is_rosbag file); split; auto; discriminate.
  - intros Hno. destruct (is_rosbag file); [|reflexivity].
    destruct (proj1 H eq_refl) as [stem E]. destruct (Hno stem E).
Qed.

Lemma is_rosbag_spec_witness :
  check_is_rosbag "run.mcap" = Raise (TypeError "Not a rosbag file: run.mcap").
Proof.
  apply (proj2 (proj2 (is_rosbag_spec "run.mcap"))).
  intros stem H.
  pose proof (proj2 (endswith_spec "run.mcap" ".bag") (ex_intro _ stem H)) as E.
  discriminate E.
Defined.

(* ===================================================================== *)
(** * Further properties of the schema flattener                          *)
(* ===================================================================== *)

Section SchemaMore.

Implicit Types (reg : TypeRegistry).

Lemma flatten_fields_app_raise flatten reg before field after outs e :
  Forall2 (fun field out => flatten_field flatten field reg = (reg, Ret out))
          before outs ->
  flatten_field flatten field reg = (reg, Raise e) ->
  forall acc, flatten_fields flatten (before ++ field :: after) acc reg
              = (reg, Raise e).
Proof.
  intros Hb Hf. induction Hb as [|f0 out before outs H0 _ IH]; intros acc.
  - cbn [app flatten_fields]. unfold bind. rewrite Hf. reflexivity.
  - cbn [app flatten_fields]. unfold bind at 1. rewrite H0. apply IH.
Qed.

Lemma flatten_fields_head_nofuel flatten reg field rest acc :
  flatten_field flatten field reg = (reg, NoFuel) ->
  flatten_fields flatten (field :: rest) acc reg = (reg, NoFuel).
Proof. intros H. cbn [flatten_fields]. unfold bind. rewrite H. reflexivity. Qed.

Lemma flatten_schema_unfold fuel reg T :
  flatten_schema (S fuel) T reg
  = match resolve reg T with
    | None => (reg, Raise (TypeError ("Unregistered ROS type: " +:+ T)))
    | Some ros_schema => flatten_fields (flatten_schema fuel) (snd ros_schema) [] reg
    end.
Proof.
  cbn [flatten_schema]. unfold lookup_schema, bind, get, ret. cbn.
  destruct (resolve reg T); reflexivity.
Qed.

End SchemaMore.

(** X8: flattening never changes the type registry, whatever it returns or
    raises. *)
Theorem flatten_schema_reads_only fuel :
  forall ros_type reg, fst (flatten_schema fuel ros_type reg) = reg.
Proof.
  induction fuel as [|fuel IH]; intros ros_type reg; [reflexivity|].
  rewrite flatten_schema_unfold.
  destruct (resolve reg ros_type) as [[consts fields]|]; [|reflexivity].
  apply flatten_fields_frame, IH.
Qed.

(** X9: a field of a named type that cannot be resolved aborts the
    flattening of the enclosing type: the call raises the [TypeError]
    that names the nested type, and the fields flattened before it are
    lost. *)
Theorem flatten_schema_nested_unknown fuel reg T consts before f U after outs :
  resolve reg T = Some (consts, before ++ (f, Fd_name U) :: after) ->
  Forall2 (fun field out =>
             flatten_field (flatten_schema (S fuel)) field reg = (reg, Ret out))
          before outs ->
  resolve reg U = None ->
  flatten_schema (S (S fuel)) T reg
  = (reg, Raise (TypeError ("Unregistered ROS type: " +:+ U))).
Proof.
  intros HT Hb HU. rewrite flatten_schema_unfold, HT. cbn [snd].
  eapply flatten_fields_app_raise; [exact Hb|].
  cbn [flatten_field fst snd]. unfold bind.
  rewrite flatten_schema_unfold, HU. reflexivity.
Qed.

Lemma flatten_schema_nested_unknown_witness :
  flatten_schema 2 "T" reg_dangling
  = (reg_dangling, Raise (TypeError "Unregistered ROS type: Header")).
Proof.
  apply (flatten_schema_nested_unknown 0 reg_dangling "T" [] [("x", Fd_base "int")]
           "h" "Header" [] [[mkFlatField "x" "int"]]).
  - reflexivity.
  - constructor; [reflexivity|constructor].
  - reflexivity.
Defined.

(** X10: a type whose first field is of the type itself is never flattened:
    the recursion exhausts every budget (in Python, [RecursionError]). *)
Theorem flatten_schema_self_reference reg T consts f rest :
  resolve reg T = Some (consts, (f, Fd_name T) :: rest) ->
  forall fuel, flatten_schema fuel T reg = (reg, NoFuel).
Proof.
  intros HT. induction fuel as [|fuel IH]; [reflexivity|].
  rewrite flatten_schema_unfold, HT. cbn [snd].
  apply flatten_fields_head_nofuel.
  cbn [flatten_field fst snd]. unfold bind. rewrite IH. reflexivity.
Qed.

Lemma flatten_schema_self_reference_witness :
  flatten_schema 50 "Node" reg_cyclic = (reg_cyclic, NoFuel).
Proof.
  exact (flatten_schema_self_reference reg_cyclic "Node" [] "next" [] eq_refl 50).
Defined.

(* ===================================================================== *)
(** * Further properties of the value filter                              *)
(* ===================================================================== *)

Section FilterMore.

Lemma only_prims_fixed t : only_prims t = true -> filter_spec t = t.
Proof.
  induction t as [x|cls|k ts _|items IH] using Tree_ind';
    cbn [only_prims filter_spec]; intros H; try discriminate.
  - rewrite H. reflexivity.
  - f_equal. induction IH as [|[k v] items Hv _ IHitems]; [reflexivity|].
    cbn [forallb snd] in H. apply andb_prop in H as [H1 H2].
    cbn [map fst snd] in *. rewrite (Hv H1), (IHitems H2). reflexivity.
Qed.

Lemma only_prims_imap (g : nat -> string) (ts : list Tree) :
  Forall (fun t => only_prims t = true) ts ->
  forallb (fun kt : string * Tree => only_prims (snd kt))
          (imap (fun i t => (g i, t)) ts) = true.
Proof.
  intros H. revert g. induction H as [|t ts Ht _ IH]; intros g; [reflexivity|].
  cbn [imap forallb snd]. rewrite Ht. apply (IH (g ∘ S)).
Qed.

Lemma filter_spec_only_prims t : only_prims (filter_spec t) = true.
Proof.
  induction t as [x|cls|k ts IH|items IH] using Tree_ind'.
  - cbn. destruct (is_prim x) eqn:E; cbn; [exact E|reflexivity].
  - reflexivity.
  - cbn [filter_spec]. destruct (unrolls k); [|reflexivity].
    cbn [only_prims]. apply only_prims_imap.
    apply Forall_fmap. exact IH.
  - cbn [filter_spec only_prims].
    induction IH as [|[k v] items Hv _ IHitems]; [reflexivity|].
    cbn [map forallb fst snd] in *. rewrite Hv. exact IHitems.
Qed.

End FilterMore.

(** X1: what the filter returns is made of mappings and primitive scalars
    only, and the filter leaves a decoded value as it is exactly when the
    value is already of that kind. *)
Theorem filter_fixed_points t s fuel :
  keys_distinct t = true -> depth t < fuel ->
  (exists c, filtered_content fuel t s = Some c /\ only_prims c = true)
  /\ (filtered_content fuel t s = Some t <-> only_prims t = true).
Proof.
  intros Hk Hd. rewrite (filtered_content_ok t s fuel Hk Hd). split.
  - exists (filter_spec t). split; [reflexivity|apply filter_spec_only_prims].
  - split.
    + intros [= H]. rewrite <- H. apply filter_spec_only_prims.
    + intros H. rewrite (only_prims_fixed t H). reflexivity.
Qed.

Lemma filter_fixed_points_witness :
  (exists c, filtered_content 3 msg_ab ∅ = Some c /\ only_prims c = true)
  /\ (filtered_content 3 msg_ab ∅ = Some msg_ab <-> only_prims msg_ab = true).
Proof.
  exact (filter_fixed_points msg_ab ∅ 3 eq_refl ltac:(vm_compute; lia)).
Defined.

(** X2: a dict that holds itself under its first key is never filtered: the
    recursion exhausts every budget (in Python, [RecursionError]), and
    the store is left as it was. *)
Theorem filter_cyclic_dict (s : Store) a k (rest : Dict) :
  s !! a = Some ((k, V_dict a) :: rest) ->
  forall fuel, filter_multidimensional fuel (V_dict a) s = (s, NoFuel).
Proof.
  intros Ha. induction fuel as [|fuel IH]; [reflexivity|].
  cbn [filter_multidimensional]. unfold bind at 1, load_dict at 1. rewrite Ha.
  cbn [length filter_items]. unfold bind at 1. unfold bind at 1, load_dict at 1.
  rewrite Ha. cbn [lookup list_lookup]. unfold bind at 1. rewrite IH. reflexivity.
Qed.

Lemma filter_cyclic_dict_witness :
  filter_multidimensional 100 (V_dict 0) store_cyclic = (store_cyclic, NoFuel).
Proof.
  exact (filter_cyclic_dict store_cyclic 0 "self" [("x", V_scalar (S_int 1))]
           eq_refl 100).
Defined.

(* ===================================================================== *)
(** * Further properties of the message step                              *)
(* ===================================================================== *)




(** X4: [int(ts * 1e-6)] is computed in binary64 and is not always the
    number of whole milliseconds in [ts]: for the timestamp
    1699999999999999999 ns it is 1700000000000, one more than
    [ts // 10^6]. For small timestamps the two agree. *)
Theorem ts_ms_not_truncation :
  ts_ms 1699999999999999999 = Some 1700000000000%Z
  /\ (1699999999999999999 / 1000000 = 1699999999999)%Z
  /\ ~ (forall ts, (0 <= ts < 2 ^ 63)%Z -> ts_ms ts = Some (ts / 1000000)%Z)
  /\ ts_ms 0 = Some 0%Z
  /\ ts_ms 999999 = Some 0%Z
  /\ ts_ms 1000000 = Some 1%Z.
Proof.
  split; [vm_compute; reflexivity|]. split; [reflexivity|].
  split; [|repeat split; vm_compute; reflexivity].
  intros H. specialize (H 1699999999999999999%Z ltac:(lia)).
  vm_compute in H. discriminate H.
Qed.

(* ===================================================================== *)
(** * The session: registering topics and reading messages                *)
(* ===================================================================== *)

(** X11: after the constructor's loop, the topic found under a name is the
    last parsed topic with that name; topics parsed earlier under the
    same name are no longer in the dict. So two connections whose names
    normalize to one string share a single [Topic]. *)
Theorem register_topics_last_wins parsed :
  forall topics name,
    register_topics parsed topics !! name
    = match last (filter (fun t => topic_name t = name) parsed) with
      | Some t => Some t
      | None => topics !! name
      end.
Proof.
  induction parsed as [|t parsed IH]; intros topics name; [reflexivity|].
  change (register_topics (t :: parsed) topics)
    with (register_topics parsed (<[topic_name t := t]> topics)).
  rewrite IH. destruct (decide (topic_name t = name)) as [E|E].
  - rewrite filter_cons_True by exact E. rewrite last_cons.
    destruct (last (filter _ parsed)); [reflexivity|].
    rewrite E. apply lookup_insert_eq.
  - rewrite filter_cons_False by exact E.
    destruct (last (filter _ parsed)); [reflexivity|].
    apply lookup_insert_ne. exact E.
Qed.

Section ReadMessages.

Implicit Types (sess : Session) (m : ReaderMessage).

Lemma on_store_ret {A} (c : M Store A) sess s' a :
  c (store sess) = (s', Ret a) ->
  on_store c sess = (mkSession s' (session_topics sess), Ret a).
Proof. unfold on_store. intros ->. reflexivity. Qed.

(** A readable message is decoded and passes the step, whatever the
    store holds; what the step yields is labelled with the normalized
    name of the connection. *)
Lemma read_message_yields fuel m sess :
  readable fuel m ->
  exists (s1 s2 : Store) v msg,
    on_store (alloc (decoded m)) sess = (mkSession s1 (session_topics sess), Ret v)
    /\ on_store (read_message_step fuel (conn_topic m) (timestamp m) v)
                (mkSession s1 (session_topics sess))
       = (mkSession s2 (session_topics sess),
          Ret (format_name (conn_topic m), msg)).
Proof.
  intros (items & Hdec & Hk & Hin & Hd & [ms Hms]).
  destruct (filter_decoded_dict items (store sess) fuel Hk Hd)
    as (s1 & s2 & a & d & Hrun & Hfilter & Ha & Hnd & Hkeys).
  destruct (dict_del_Some "__msgtype__" (dict_set "ts" (V_scalar (S_int ms)) d))
    as [d' Hdel].
  { rewrite dict_set_keys, Hkeys.
    destruct (bool_decide _); [exact Hin|]. apply elem_of_app. left. exact Hin. }
  pose proof (read_message_step_run fuel (conn_topic m) (timestamp m) ms
                s1 s2 a d Hfilter Ha Hms) as Hstep.
  rewrite Hdel in Hstep.
  eexists s1, _, (V_dict a), (V_dict a). rewrite Hdec. split.
  - apply on_store_ret. exact Hrun.
  - apply (on_store_ret _ (mkSession s1 (session_topics sess))). exact Hstep.
Qed.

Lemma read_messages_cons_ok fuel m rest sess tm :
  readable fuel m ->
  session_topics sess !! format_name (conn_topic m) = Some tm ->
  exists (s2 : Store) msg,
    read_messages fuel (m :: rest) sess
    = read_messages fuel rest
        (mkSession s2 (<[format_name (conn_topic m) := add_message tm msg]>
                         (session_topics sess))).
Proof.
  intros Hm Htm.
  destruct (read_message_yields fuel m sess Hm) as (s1 & s2 & v & msg & Hdec & Hstep).
  exists s2, msg. cbn [read_messages]. rewrite (bind_ret _ _ _ _ _ Hdec).
  rewrite (bind_ret _ _ _ _ _ Hstep). cbn [fst snd].
  unfold bind at 1. unfold add_to_topic at 1. cbn [session_topics store].
  rewrite Htm. reflexivity.
Qed.


Lemma count_for_cons name m msgs :
  count_for name (m :: msgs)
  = (if decide (format_name (conn_topic m) = name) then 1 else 0)
    + count_for name msgs.
Proof.
  unfold count_for. rewrite filter_cons.
  destruct (decide (format_name (conn_topic m) = name)); reflexivity.
Qed.

Lemma dom_insert_present (topics : gmap string Topic) name t t' :
  topics !! name = Some t -> dom (<[name := t']> topics) = dom topics.
Proof.
  intros H. rewrite dom_insert_L. apply elem_of_dom_2 in H.
  apply set_eq. intros x. rewrite elem_of_union, elem_of_singleton.
  split; [intros [->|Hx]; assumption|auto].
Qed.

Lemma message_count_add t msg :
  message_count (add_message t msg) = S (message_count t).
Proof. unfold message_count. cbn. rewrite length_app. cbn. lia. Qed.

End ReadMessages.

(** X12: when every message is readable and belongs to a registered topic,
    [read_messages] returns; it registers no topic and drops none; and
    every topic keeps its name, its schema and the messages it had, and
    gains one message for each message read on a connection with its
    name. *)
Theorem read_messages_counts fuel msgs :
  forall sess,
    Forall (readable fuel) msgs ->
    Forall (fun m => format_name (conn_topic m) ∈ dom (session_topics sess)) msgs ->
    exists sess',
      read_messages fuel msgs sess = (sess', Ret tt)
      /\ dom (session_topics sess') = dom (session_topics sess)
      /\ forall name t,
           session_topics sess !! name = Some t ->
           exists t',
             session_topics sess' !! name = Some t'
             /\ topic_name t' = topic_name t
             /\ schema t' = schema t
             /\ messages t `prefix_of` messages t'
             /\ message_count t' = message_count t + count_for name msgs.
Proof.
  induction msgs as [|m msgs IH]; intros sess Hread Hreg.
  - exists sess. split; [reflexivity|]. split; [reflexivity|].
    intros name t Ht. exists t.
    split; [exact Ht|]. split; [reflexivity|]. split; [reflexivity|].
    split; [reflexivity|]. unfold count_for. cbn. lia.
  - apply Forall_cons in Hread as [Hm Hread]. apply Forall_cons in Hreg as [Hn Hreg].
    apply elem_of_dom in Hn as [tm Htm].
    destruct (read_messages_cons_ok fuel m msgs sess tm Hm Htm) as (s2 & msg & Hcons).
    set (nm := format_name (conn_topic m)) in *.
    set (sess2 := mkSession s2 (<[nm := add_message tm msg]> (session_topics sess))) in *.
    assert (Hdom2 : dom (session_topics sess2) = dom (session_topics sess))
      by (apply (dom_insert_present _ _ tm); exact Htm).
    destruct (IH sess2 Hread) as (sess' & Hrun & Hdom & Hcount).
    { rewrite Hdom2. exact Hreg. }
    exists sess'. split; [rewrite Hcons; exact Hrun|].
    split; [rewrite Hdom; exact Hdom2|].
    intros name t Ht. rewrite count_for_cons. fold nm.
    destruct (decide (nm = name)) as [E|E].
    + subst name. rewrite Htm in Ht. injection Ht as <-.
      destruct (Hcount nm (add_message tm msg)) as (t' & Ht' & Hn' & Hs' & Hp' & Hc').
      { cbn. apply lookup_insert_eq. }
      exists t'. split; [exact Ht'|]. split; [exact Hn'|]. split; [exact Hs'|].
      split.
      * etransitivity; [|exact Hp']. cbn. apply prefix_app_r. reflexivity.
      * rewrite Hc', message_count_add. lia.
    + destruct (Hcount name t) as (t' & Ht' & Hn' & Hs' & Hp' & Hc').
      { cbn. rewrite lookup_insert_ne by exact E. exact Ht. }
      exists t'. split; [exact Ht'|]. split; [exact Hn'|]. split; [exact Hs'|].
      split; [exact Hp'|]. rewrite Hc'. lia.
Qed.

Lemma read_messages_counts_witness :
  exists sess',
    read_messages 3 [stamped "/a" 5000000; stamped "/b/c" 6000000; stamped "/a" 7000000]
      (mkSession ∅ (register_topics [Topic_init "/a" []; Topic_init "/b/c" []] ∅))
    = (sess', Ret tt).
Proof.
  destruct (read_messages_counts 3
              [stamped "/a" 5000000; stamped "/b/c" 6000000; stamped "/a" 7000000]
              (mkSession ∅ (register_topics [Topic_init "/a" []; Topic_init "/b/c" []] ∅)))
    as (sess' & Hrun & _).
  - repeat constructor;
      (eexists; split; [reflexivity|]; split; [reflexivity|];
       split; [cbn; rewrite !elem_of_cons; auto|];
       split; [vm_compute; lia|vm_compute; eauto]).
  - repeat constructor; apply elem_of_dom; vm_compute; eauto.
  - exists sess'. exact Hrun.
Defined.


